(** * The form-submission server (server.js)

    A shallow embedding of the two route handlers of [server.js]:
    [POST /submit-form], which uploads every received photo and video to
    Cloudinary and stores one [Form] document holding the resulting URLs, and
    [GET /forms], which lists the stored documents.

    The handlers are [async] functions.  They are embedded in a small monad
    [M] that threads the observable world (a chronological event trace and the
    content of the [forms] collection) and distinguishes a returned value, a
    thrown exception and an [await] that never resumes.  Cloudinary, MongoDB
    and the order in which in-flight uploads complete are outside the program:
    they are collected in an environment [Env] over which every theorem
    quantifies. *)

From stdpp Require Import base list strings.
From Stdlib Require Import Strings.Byte.

Set Default Proof Using "Type".

(** ** Data *)

(** [resource_type] option passed to [cloudinary.uploader.upload_stream]. *)
Inductive ResourceType := rt_image | rt_video.   (* 'image', 'video' *)

(** A JavaScript error value; the handlers only ever read [err.message]. *)
Record Err := mkErr { message : string }.

(** One entry of [req.files.<field>] as produced by multer's memory storage;
    the handler reads [file.buffer] only. *)
Record File := mkFile { originalname : string; buffer : list byte }.

(** [req.files]: an object that may or may not carry the keys [photo] and
    [video]; [None] stands for a missing key ([undefined]). *)
Record Files := mkFiles {
  photo : option (list File);
  video : option (list File)
}.

(** [req.body]: the text fields; a field that was not sent is [undefined]. *)
Module Body.
Record t := mk { name : option string; address : option string }.
End Body.

(** The request as far as the handler looks at it.  [files = None] is a
    falsy [req.files]. *)
Record Request := mkRequest { files : option Files; body : Body.t }.

(** A document of the [Form] model ([formSchema]). *)
Record FormDoc := mkForm {
  _id : nat;
  name : option string;
  address : option string;
  photoUrls : list string;
  videoUrls : list string
}.

(** The JSON bodies the two handlers send. *)
Inductive Json :=
  | JMessage (msg : string)                       (* { message } *)
  | JMessageError (msg : string) (error : string) (* { message, error } *)
  | JSubmitted (msg : string) (form : FormDoc)    (* { message, form } *)
  | JForms (docs : list FormDoc).                 (* [ ...forms ] *)

Record Response := mkResponse { status : nat; json : Json }.

(** [res.json(b)] answers with the default status 200,
    [res.status(c).json(b)] with status [c]. *)
Definition res_json (b : Json) : Response := mkResponse 200 b.
Definition res_status_json (c : nat) (b : Json) : Response := mkResponse c b.

(** ** Promises *)

(** How a promise settles. *)
Inductive Settlement (A : Type) :=
  | Fulfilled (value : A)
  | Rejected (reason : Err).
Arguments Fulfilled {A} value.
Arguments Rejected {A} reason.

(** The promise returned by [uploadToCloudinary]: [pid] is the number of the
    Object Store call it belongs to, [outcome] is how it settles once that
    call completes. *)
Record Promise (A : Type) := mkPromise { pid : nat; outcome : Settlement A }.
Arguments mkPromise {A} pid outcome.
Arguments pid {A} p.
Arguments outcome {A} p.

(** What the upload callback [(error, result)] receives: either an error or a
    result whose [secure_url] is read. *)
Inductive UploadCallback :=
  | cb_error (error : Err)
  | cb_result (secure_url : string).

(** The callback given to [upload_stream]:
    [if (error) reject(error); else resolve(result.secure_url)]. *)
Definition callback (cb : UploadCallback) : Settlement string :=
  match cb with
  | cb_error error => Rejected error
  | cb_result secure_url => Fulfilled secure_url
  end.

(** ** The world and the environment *)

Inductive Event :=
  | EvUpload (fileBuffer : list byte) (resourceType : ResourceType)
      (* [uploadToCloudinary] was called on this buffer with this resource
         type: an upload was started.  The event does not say that the buffer
         reached Cloudinary. *)
  | EvCompleted (call : nat)
      (* the upload with this call number completed and its promise settled *)
  | EvSave (doc : FormDoc).
      (* [save] was invoked on the document *)

(** [forms] holds the documents of the collection.  The order of the list is
    a matter of representation: [Form.find()] promises none. *)
Record World := mkWorld { trace : list Event; forms : list FormDoc }.

Definition is_upload (ev : Event) : bool :=
  match ev with EvUpload _ _ => true | _ => false end.

Definition is_save (ev : Event) : bool :=
  match ev with EvSave _ => true | _ => false end.

(** Number of Object Store calls made so far. *)
Definition upload_count (t : list Event) : nat := length (filter is_upload t).

(** Number of [save] invocations made so far. *)
Definition save_count (t : list Event) : nat := length (filter is_save t).

Definition log (evs : list Event) (w : World) : World :=
  mkWorld (trace w ++ evs) (forms w).

(** Everything the handlers do not decide themselves. *)
Record Env := mkEnv {
  (** Cloudinary's answer to the [k]-th upload call, given the buffer and the
      resource type of the call. *)
  upload_stream : nat -> list byte -> ResourceType -> UploadCallback;
  (** The order in which the uploads of a batch complete, as positions in the
      batch.  A position that does not occur never completes. *)
  completion : ResourceType -> list nat;
  (** The identifier mongoose gives to the next [new Form]. *)
  ObjectId : nat;
  (** MongoDB's verdict on saving a document. *)
  save_error : FormDoc -> option Err;
  (** MongoDB's verdict on [Form.find()]. *)
  find_error : option Err
}.

(** ** The monad of asynchronous code *)

Inductive Outcome (A : Type) :=
  | Return (a : A)
  | Throw (e : Err)
  | Pending.      (* suspended at an [await] that is never resumed *)
Arguments Return {A} a.
Arguments Throw {A} e.
Arguments Pending {A}.

Definition M (A : Type) : Type := World -> World * Outcome A.

#[global] Instance M_ret : MRet M := fun A a w => (w, Return a).

#[global] Instance M_bind : MBind M := fun A B f m w =>
  match m w with
  | (w', Return a) => f a w'
  | (w', Throw e) => (w', Throw e)
  | (w', Pending) => (w', Pending)
  end.

(** [try { body } catch (err) { handler }] *)
Definition try_catch {A} (body : M A) (handler : Err -> M A) : M A := fun w =>
  match body w with
  | (w', Throw e) => handler e w'
  | r => r
  end.

(** [array.map(f)] for a callback with effects: the elements are visited from
    left to right. *)
Fixpoint array_map {A B} (f : A -> M B) (l : list A) : M (list B) :=
  match l with
  | [] => mret []
  | x :: l' => y ← f x; ys ← array_map f l'; mret (y :: ys)
  end.

(** ** [Promise.all] *)

(** The resolve-element bookkeeping of [Promise.all]: [values] is the result
    array, with [None] for a slot not yet written, and [remaining] counts the
    promises that are still to be fulfilled.  Completions are consumed in the
    given [order].  A fulfilment writes its value at the promise's own index;
    the first rejection settles the aggregate.  A position outside the array,
    or one whose promise has already settled, has nothing left to deliver.
    Returned: the calls whose completion was observed, and the settlement of
    the aggregate promise, if it settles at all. *)
Fixpoint all_loop {A} (promises : list (Promise A)) (values : list (option A))
    (remaining : nat) (order : list nat) {struct order}
    : list nat * option (Settlement (list (option A))) :=
  match remaining with
  | 0 => ([], Some (Fulfilled values))
  | S r =>
    match order with
    | [] => ([], None)
    | i :: order' =>
      match promises !! i, values !! i with
      | Some p, Some None =>
        match outcome p with
        | Rejected e => ([pid p], Some (Rejected e))
        | Fulfilled v =>
          let '(seen, res) := all_loop promises (<[i:=Some v]> values) r order' in
          (pid p :: seen, res)
        end
      | _, _ => all_loop promises values remaining order'
      end
    end
  end.

Definition Promise_all {A} (promises : list (Promise A)) (order : list nat)
    : list nat * option (Settlement (list (option A))) :=
  all_loop promises (replicate (length promises) None) (length promises) order.

(** [await Promise.all(promises)] *)
Definition await_Promise_all {A} (order : list nat) (promises : list (Promise A))
    : M (list A) := fun w =>
  let '(seen, res) := Promise_all promises order in
  let w' := log (EvCompleted <$> seen) w in
  match res with
  | Some (Fulfilled values) => (w', Return (omap id values))
  | Some (Rejected e) => (w', Throw e)
  | None => (w', Pending)
  end.

(** ** The handlers *)

Section Server.
Context (env : Env).

(** [uploadToCloudinary(fileBuffer, resourceType)] starts an upload and
    returns its promise.  The promise is resolved with [result.secure_url] or
    rejected with the error of the upload, whether Cloudinary hands that error
    to the callback or [upload_stream] throws it inside the executor, where
    the [Promise] constructor turns it into a rejection before [stream.end]
    is reached; both are the reply [cb_error].  [EvUpload] records the call
    itself, which takes place on every path. *)
Definition uploadToCloudinary (fileBuffer : list byte) (resourceType : ResourceType)
    : M (Promise string) := fun w =>
  let k := upload_count (trace w) in
  (log [EvUpload fileBuffer resourceType] w,
   Return (mkPromise k (callback (upload_stream env k fileBuffer resourceType)))).

(** [await Promise.all(fs.map(file => uploadToCloudinary(file.buffer, kind)))] *)
Definition upload_all (kind : ResourceType) (fs : list File) : M (list string) :=
  promises ← array_map (fun file => uploadToCloudinary (buffer file) kind) fs;
  await_Promise_all (completion env kind) promises.

(** [field ? await Promise.all(field.map(...)) : []], the expression that
    computes [photoUrls] (lines 78-80) and [videoUrls] (lines 83-85).  An
    array is truthy even when it is empty. *)
Definition upload_field (kind : ResourceType) (field : option (list File))
    : M (list string) :=
  match field with
  | Some fs => upload_all kind fs
  | None => mret []
  end.

(** [new Form({ name, address, photoUrls, videoUrls })] *)
Definition new_Form (b : Body.t) (photoUrls videoUrls : list string) : FormDoc :=
  mkForm (ObjectId env) (Body.name b) (Body.address b) photoUrls videoUrls.

(** [await doc.save()] *)
Definition save (doc : FormDoc) : M unit := fun w =>
  match save_error env doc with
  | Some e => (log [EvSave doc] w, Throw e)
  | None => (mkWorld (trace w ++ [EvSave doc]) (forms w ++ [doc]), Return ())
  end.

(** [await Form.find()] *)
Definition find : M (list FormDoc) := fun w =>
  match find_error env with
  | Some e => (w, Throw e)
  | None => (w, Return (forms w))
  end.

(** [!x] for an [x] that is either [undefined] or an object: every object,
    an empty array included, is truthy. *)
Definition not_ {A} (x : option A) : bool :=
  match x with
  | None => true
  | Some _ => false
  end.

(** [!req.files || (!req.files.photo && !req.files.video)] *)
Definition no_files (req : Request) : bool :=
  match files req with
  | None => true
  | Some fs => not_ (photo fs) && not_ (video fs)
  end.

(** The [try] block of the [/submit-form] handler.  Past the check
    [req.files] is an object, and [files req ≫= photo] is [req.files.photo]. *)
Definition submit_form_try (req : Request) : M Response :=
  if no_files req then
    mret (res_status_json 400 (JMessage "At least one photo or video is required"))
  else
    photoUrls ← upload_field rt_image (files req ≫= photo);
    videoUrls ← upload_field rt_video (files req ≫= video);
    let newForm := new_Form (body req) photoUrls videoUrls in
    _ ← save newForm;
    mret (res_json (JSubmitted "Form submitted successfully!" newForm)).

(** The [/submit-form] handler. *)
Definition submit_form (req : Request) : M Response :=
  try_catch (submit_form_try req)
    (fun err => mret (res_status_json 500
                        (JMessageError "Something went wrong" (message err)))).

(** The [/forms] handler. *)
Definition get_forms : M Response :=
  try_catch (forms ← find; mret (res_json (JForms forms)))
    (fun err => mret (res_status_json 500 (JMessage "Error fetching forms"))).

End Server.

(** ** Sample environments and requests *)

Module Examples.
Definition U (s : string) : UploadCallback := cb_result s.
Definition p1 := mkFile "p1.png" [x01].
Definition p2 := mkFile "p2.png" [x02].
Definition v1 := mkFile "v1.mp4" [x03].
Definition w0 := mkWorld [] [].

(** Every upload succeeds; the second photo completes before the first. *)
Definition envA : Env :=
  mkEnv (fun k _ _ => match k with 0 => U "U_p1" | 1 => U "U_p2" | _ => U "U_v1" end)
        (fun _ => [1; 0]) 7 (fun _ => None) None.

(** The uploads succeed but MongoDB is unreachable. *)
Definition envDown : Env :=
  mkEnv (upload_stream envA) (completion envA) 8
        (fun _ => Some (mkErr "buffering timed out"))
        (Some (mkErr "buffering timed out")).

(** Cloudinary refuses every upload. *)
Definition envB : Env :=
  mkEnv (fun _ _ _ => cb_error (mkErr "Invalid image file"))
        (fun _ => [0]) 9 (fun _ => None) None.

Definition reqB :=
  mkRequest (Some (mkFiles (Some [p1]) None)) (Body.mk (Some "Ada") None).

Definition reqA :=
  mkRequest (Some (mkFiles (Some [p1; p2]) (Some [v1])))
            (Body.mk (Some "Ada") (Some "1 Infinite Loop")).
End Examples.

(** ** Vocabulary of the statements *)

(** Number of slots of the result array that have not been written. *)
Fixpoint holes {A} (values : list (option A)) : nat :=
  match values with
  | [] => 0
  | None :: vs => S (holes vs)
  | Some _ :: vs => holes vs
  end.

(** The invariant of the [Promise.all] bookkeeping: the result array has one
    slot per promise, [remaining] counts its unwritten slots, and a written
    slot holds the value its own promise was fulfilled with. *)
Record all_inv {A} (promises : list (Promise A)) (values : list (option A))
    (remaining : nat) : Prop := mk_all_inv {
  inv_length : length values = length promises;
  inv_remaining : remaining = holes values;
  inv_written : ∀ i v, values !! i = Some (Some v) →
                  ∃ p, promises !! i = Some p ∧ outcome p = Fulfilled v
}.

(** The promises that [fs.map(file => uploadToCloudinary(file.buffer, kind))]
    creates when [base] Object Store calls were made before it. *)
Definition promises_of (env : Env) (base : nat) (kind : ResourceType)
    (fs : list File) : list (Promise string) :=
  imap (λ i file,
          mkPromise (base + i)
            (callback (upload_stream env (base + i) (buffer file) kind))) fs.

(** The events of dispatching one upload per file of [fs]. *)
Definition upload_events (kind : ResourceType) (fs : list File) : list Event :=
  (λ file, EvUpload (buffer file) kind) <$> fs.

(** The Object Store answers the upload of the file at every position [i] of
    [fs] (call number [base + i]) with the URL at position [i] of [urls]. *)
Definition uploads_succeed (env : Env) (base : nat) (kind : ResourceType)
    (fs : list File) (urls : list string) : Prop :=
  length urls = length fs ∧
  ∀ i file, fs !! i = Some file →
    ∃ u, urls !! i = Some u ∧
         upload_stream env (base + i) (buffer file) kind = cb_result u.

(** The Object Store answers the upload of the file at position [i] of [fs]
    with the error [e]. *)
Definition upload_fails (env : Env) (base : nat) (kind : ResourceType)
    (fs : list File) (i : nat) (e : Err) : Prop :=
  ∃ file, fs !! i = Some file ∧
          upload_stream env (base + i) (buffer file) kind = cb_error e.

(** Every upload of a batch of [n] files completes at some point. *)
Definition all_complete (env : Env) (kind : ResourceType) (n : nat) : Prop :=
  ∀ i, i < n → i ∈ completion env kind.

(** The photo and video attachments of a submission: the files under the
    key, none when the key (or [req.files] itself) is missing. *)
Definition photos (req : Request) : list File := default [] (files req ≫= photo).
Definition videos (req : Request) : list File := default [] (files req ≫= video).

(** [req.files] as the middleware [upload.fields] of lines 65-68 hands it to
    the handler.  Multer creates the key of a field when a file part of that
    name arrives, so a key that is present is bound to at least one file; a
    request without files has no key at all. *)
Definition from_multer (req : Request) : Prop :=
  ∀ fs, files req = Some fs → photo fs ≠ Some [] ∧ video fs ≠ Some [].

(** The two responses of [/submit-form] that do not depend on the uploads. *)
Definition response_400 : Response :=
  mkResponse 400 (JMessage "At least one photo or video is required").
Definition response_500 (cause : string) : Response :=
  mkResponse 500 (JMessageError "Something went wrong" cause).
Definition response_200 (doc : FormDoc) : Response :=
  mkResponse 200 (JSubmitted "Form submitted successfully!" doc).

(** The record a [/submit-form] outcome announces to the client: the [form]
    of a [{ message, form }] body, none for any other outcome. *)
Definition persisted_of (o : Outcome Response) : list FormDoc :=
  match o with
  | Return r =>
    match json r with
    | JSubmitted _ doc => [doc]
    | _ => []
    end
  | _ => []
  end.

(** The world after the fan-out of a batch: an upload was started for every
    file, then the completions of the calls [seen] were observed. *)
Definition after_batch (kind : ResourceType) (fs : list File) (seen : list nat)
    (w : World) : World :=
  log (upload_events kind fs ++ (EvCompleted <$> seen)) w.

(** The ways the [try] block of [/submit-form] can end, with the world each
    one leaves behind. *)
Inductive try_run (env : Env) (req : Request) (w : World)
    : World → Outcome Response → Prop :=
  | run_no_files :
      no_files req = true →
      try_run env req w w (Return response_400)
  | run_photos_throw seen i e :
      no_files req = false →
      upload_fails env (upload_count (trace w)) rt_image (photos req) i e →
      try_run env req w (after_batch rt_image (photos req) seen w) (Throw e)
  | run_photos_pending seen :
      no_files req = false →
      ¬ all_complete env rt_image (length (photos req)) →
      try_run env req w (after_batch rt_image (photos req) seen w) Pending
  | run_videos_throw purls seen1 seen2 i e :
      no_files req = false →
      uploads_succeed env (upload_count (trace w)) rt_image (photos req) purls →
      upload_fails env (upload_count (trace w) + length (photos req))
        rt_video (videos req) i e →
      try_run env req w
        (after_batch rt_video (videos req) seen2
           (after_batch rt_image (photos req) seen1 w))
        (Throw e)
  | run_videos_pending purls seen1 seen2 :
      no_files req = false →
      uploads_succeed env (upload_count (trace w)) rt_image (photos req) purls →
      ¬ all_complete env rt_video (length (videos req)) →
      try_run env req w
        (after_batch rt_video (videos req) seen2
           (after_batch rt_image (photos req) seen1 w))
        Pending
  | run_save_refused purls vurls seen1 seen2 e :
      no_files req = false →
      uploads_succeed env (upload_count (trace w)) rt_image (photos req) purls →
      uploads_succeed env (upload_count (trace w) + length (photos req))
        rt_video (videos req) vurls →
      save_error env (new_Form env (body req) purls vurls) = Some e →
      try_run env req w
        (log [EvSave (new_Form env (body req) purls vurls)]
           (after_batch rt_video (videos req) seen2
              (after_batch rt_image (photos req) seen1 w)))
        (Throw e)
  | run_saved purls vurls seen1 seen2 :
      no_files req = false →
      uploads_succeed env (upload_count (trace w)) rt_image (photos req) purls →
      uploads_succeed env (upload_count (trace w) + length (photos req))
        rt_video (videos req) vurls →
      save_error env (new_Form env (body req) purls vurls) = None →
      try_run env req w
        (mkWorld
           (trace (after_batch rt_video (videos req) seen2
                     (after_batch rt_image (photos req) seen1 w))
            ++ [EvSave (new_Form env (body req) purls vurls)])
           (forms w ++ [new_Form env (body req) purls vurls]))
        (Return (response_200 (new_Form env (body req) purls vurls))).

Module MoreExamples.
(** Cloudinary answers every upload with a URL, but only the first upload of
    a batch ever completes. *)
Definition envSlow : Env :=
  mkEnv (upload_stream Examples.envA) (fun _ => [0]) 10 (fun _ => None) None.

(** The second upload is refused and completes first. *)
Definition envRace : Env :=
  mkEnv (fun k _ _ => match k with
                      | 1 => cb_error (mkErr "File size too large")
                      | _ => cb_result "U"
                      end)
        (fun _ => [1; 0; 2]) 11 (fun _ => None) None.

(** Photos and videos upload fine; MongoDB refuses the document. *)
Definition envRefused : Env :=
  mkEnv (upload_stream Examples.envA) (completion Examples.envA) 12
        (fun _ => Some (mkErr "validation failed")) None.
End MoreExamples.

(** * Properties of [Promise.all] *)

Section PromiseAll.
Context {A : Type}.
Implicit Types (promises : list (Promise A)) (values : list (option A)).
Implicit Types (order seen : list nat).

#[global] Instance Fulfilled_inj : Inj (=) (=) (@Fulfilled A).
Proof. by intros v v' [= ->]. Qed.

Lemma omap_id_Some (vs : list A) : omap id (Some <$> vs) = vs.
Proof. induction vs as [|v vs IH]; [done|]. csimpl. by rewrite IH. Qed.

Lemma holes_replicate n : holes (replicate n (@None A)) = n.
Proof. induction n as [|n IH]; simpl; congruence. Qed.

Lemma holes_insert values i v :
  values !! i = Some None → S (holes (<[i:=Some v]> values)) = holes values.
Proof.
  revert i. induction values as [|o vs IH]; intros [|i] Hi; simplify_eq/=; auto.
  destruct o; simpl; rewrite ?IH; auto.
Qed.

Lemma holes_pos values : 0 < holes values → ∃ i, values !! i = Some None.
Proof.
  induction values as [|[v|] vs IH]; simpl; intros Hpos.
  - lia.
  - destruct (IH Hpos) as [i Hi]. by exists (S i).
  - by exists 0.
Qed.

Lemma holes_lookup values i : values !! i = Some None → 0 < holes values.
Proof.
  revert i. induction values as [|[v|] vs IH]; intros [|i] Hi; simplify_eq/=;
    eauto with lia.
Qed.

Lemma holes_zero values : holes values = 0 → values = Some <$> omap id values.
Proof.
  induction values as [|[v|] vs IH]; simpl; intros Hz; try done.
  f_equal. auto.
Qed.

Lemma all_inv_init promises :
  all_inv promises (replicate (length promises) None) (length promises).
Proof.
  split.
  - by rewrite length_replicate.
  - by rewrite holes_replicate.
  - intros i v Hi. apply lookup_replicate in Hi as [? _]. done.
Qed.

Lemma all_inv_step promises values r i p v :
  all_inv promises values (S r) →
  promises !! i = Some p → values !! i = Some None → outcome p = Fulfilled v →
  all_inv promises (<[i:=Some v]> values) r.
Proof.
  intros [Hlen Hrem Hwr] Hp Hi Hv. split.
  - by rewrite length_insert.
  - pose proof (holes_insert values i v Hi). lia.
  - intros j u Hj. destruct (decide (i = j)) as [->|Hne].
    + rewrite list_lookup_insert_eq in Hj by (by eapply lookup_lt_Some).
      simplify_eq. eauto.
    + rewrite list_lookup_insert_ne in Hj by done. eauto.
Qed.

(** A slot whose promise is rejected is never written. *)
Lemma all_inv_rejected promises values r i p e :
  all_inv promises values r →
  promises !! i = Some p → outcome p = Rejected e → values !! i = Some None.
Proof.
  intros [Hlen Hrem Hwr] Hp He.
  destruct (values !! i) as [[v|]|] eqn:Hi; [| done |].
  - destruct (Hwr i v Hi) as (p' & Hp' & Hv). congruence.
  - apply lookup_ge_None in Hi. apply lookup_lt_Some in Hp. lia.
Qed.

(** With no slot left to write, the result array lists, index by index,
    the values the promises were fulfilled with. *)
Lemma all_inv_done promises values :
  all_inv promises values 0 →
  values = Some <$> omap id values ∧
  outcome <$> promises = Fulfilled <$> omap id values.
Proof.
  intros [Hlen Hrem Hwr].
  pose proof (holes_zero values (eq_sym Hrem)) as Hvs.
  split; [done|].
  set (us := omap id values) in *. clearbody us. subst values.
  rewrite length_fmap in Hlen.
  apply list_eq. intros i. rewrite !list_lookup_fmap.
  destruct (us !! i) as [u|] eqn:Hu; simpl.
  - destruct (Hwr i u) as (p & -> & Hp); [by rewrite list_lookup_fmap, Hu|].
    simpl. by f_equal.
  - apply lookup_ge_None in Hu.
    rewrite (proj2 (lookup_ge_None promises i)) by lia. done.
Qed.

(** Whatever the completion order: when the aggregate is fulfilled, the
    invariant holds with no slot left, and the completion of every promise
    whose slot was still open has been observed. *)
Lemma all_loop_fulfilled promises order : ∀ values r seen values',
  all_inv promises values r →
  all_loop promises values r order = (seen, Some (Fulfilled values')) →
  all_inv promises values' 0 ∧
  ∀ i p, promises !! i = Some p → values !! i = Some None → pid p ∈ seen.
Proof.
  induction order as [|i order IH]; intros values r seen values' Hinv Hrun.
  - destruct r; simplify_eq/=. split; [done|].
    intros i p _ Hi. apply holes_lookup in Hi.
    destruct Hinv as [_ Hrem _]. lia.
  - destruct r as [|r].
    { simplify_eq/=. split; [done|].
      intros j p _ Hj. apply holes_lookup in Hj.
      destruct Hinv as [_ Hrem _]. lia. }
    cbn [all_loop] in Hrun.
    destruct (promises !! i) as [p|] eqn:Hp.
    + destruct (values !! i) as [[v|]|] eqn:Hi.
      * destruct (IH _ _ _ _ Hinv Hrun) as [H0 Hseen]. split; [done|].
        intros j q Hq Hj. eauto.
      * destruct (outcome p) as [v|e] eqn:Hv; [|by simplify_eq].
        destruct (all_loop promises (<[i:=Some v]> values) r order)
          as [seen0 res] eqn:Hrec. simplify_eq.
        destruct (IH _ _ _ _ (all_inv_step _ _ _ _ _ _ Hinv Hp Hi Hv) Hrec)
          as [H0 Hseen].
        split; [done|]. intros j q Hq Hj.
        destruct (decide (i = j)) as [->|Hne].
        -- simplify_eq. apply list_elem_of_here.
        -- apply list_elem_of_further. apply (Hseen j q Hq).
           by rewrite list_lookup_insert_ne.
      * destruct (IH _ _ _ _ Hinv Hrun) as [H0 Hseen]. split; [done|]. eauto.
    + destruct (IH _ _ _ _ Hinv Hrun) as [H0 Hseen]. split; [done|].
      intros j q Hq Hj. eauto.
Qed.

(** When every promise is fulfilled and every open slot's promise
    completes at some point of the order, the aggregate is fulfilled. *)
Lemma all_loop_success promises order : ∀ values r,
  all_inv promises values r →
  (∀ i, values !! i = Some None → i ∈ order) →
  (∀ i p, promises !! i = Some p → ∃ v, outcome p = Fulfilled v) →
  ∃ seen values', all_loop promises values r order = (seen, Some (Fulfilled values')).
Proof.
  induction order as [|i order IH]; intros values r Hinv Hcov Hful.
  - destruct r as [|r]; [by eexists _, _|].
    destruct (holes_pos values) as [i Hi].
    { destruct Hinv as [_ <- _]. lia. }
    apply Hcov in Hi. by apply elem_of_nil in Hi.
  - destruct r as [|r]; [by eexists _, _|]. cbn [all_loop].
    assert (∀ j, j ≠ i → values !! j = Some None → j ∈ order) as Hrest.
    { intros j Hne Hj. apply Hcov in Hj.
      apply elem_of_cons in Hj as [->|Hj]; done. }
    destruct (promises !! i) as [p|] eqn:Hp.
    + destruct (values !! i) as [[v|]|] eqn:Hi.
      * apply IH; [done| |done]. intros j Hj. apply Hrest; congruence.
      * destruct (Hful i p Hp) as [v Hv]. rewrite Hv.
        destruct (IH (<[i:=Some v]> values) r) as (seen & values' & ->);
          [by eapply all_inv_step| |done|by eexists _, _].
        intros j Hj. destruct (decide (i = j)) as [->|Hne].
        -- rewrite list_lookup_insert_eq in Hj by (by eapply lookup_lt_Some). done.
        -- rewrite list_lookup_insert_ne in Hj by done. by apply Hrest.
      * apply IH; [done| |done]. intros j Hj. apply Hrest; congruence.
    + apply IH; [done| |done]. intros j Hj. apply Hrest; [|done].
      intros ->. destruct Hinv as [Hlen _ _].
      apply lookup_ge_None in Hp. apply lookup_lt_Some in Hj. lia.
Qed.

(** When some promise that completes is rejected, the aggregate is rejected
    with the reason of the first rejected promise of the order; every
    promise completing before it was fulfilled. *)
Lemma all_loop_rejected promises order : ∀ values r i p e,
  all_inv promises values r →
  i ∈ order → promises !! i = Some p → outcome p = Rejected e →
  ∃ seen pre j post q e',
    order = pre ++ j :: post ∧
    (∀ k q', k ∈ pre → promises !! k = Some q' → ∃ v, outcome q' = Fulfilled v) ∧
    promises !! j = Some q ∧ outcome q = Rejected e' ∧
    all_loop promises values r order = (seen, Some (Rejected e')).
Proof.
  induction order as [|k order IH]; intros values r i p e Hinv Hin Hp He.
  { by apply elem_of_nil in Hin. }
  pose proof (all_inv_rejected _ _ _ _ _ _ Hinv Hp He) as Hopen.
  destruct r as [|r].
  { apply holes_lookup in Hopen. destruct Hinv as [_ Hrem _]. lia. }
  cbn [all_loop].
  destruct (promises !! k) as [q|] eqn:Hq.
  - destruct (outcome q) as [v|e'] eqn:Hv.
    + assert (i ∈ order) as Hin'.
      { apply elem_of_cons in Hin as [->|Hin]; [congruence|done]. }
      destruct (values !! k) as [[u|]|] eqn:Hk.
      * destruct (IH values (S r) i p e Hinv Hin' Hp He)
          as (seen & pre & j & post & q0 & e0 & -> & Hpre & Hj & He0 & ->).
        exists seen, (k :: pre), j, post, q0, e0. split_and!; try done.
        intros k' q' [->|Hk']%elem_of_cons Hq'; [simplify_eq; eauto|eauto].
      * destruct (IH (<[k:=Some v]> values) r i p e
                    (all_inv_step _ _ _ _ _ _ Hinv Hq Hk Hv) Hin' Hp He)
          as (seen & pre & j & post & q0 & e0 & -> & Hpre & Hj & He0 & ->).
        exists (pid q :: seen), (k :: pre), j, post, q0, e0. split_and!; try done.
        intros k' q' [->|Hk']%elem_of_cons Hq'; [simplify_eq; eauto|eauto].
      * destruct (IH values (S r) i p e Hinv Hin' Hp He)
          as (seen & pre & j & post & q0 & e0 & -> & Hpre & Hj & He0 & ->).
        exists seen, (k :: pre), j, post, q0, e0. split_and!; try done.
        intros k' q' [->|Hk']%elem_of_cons Hq'; [simplify_eq; eauto|eauto].
    + rewrite (all_inv_rejected _ _ _ _ _ _ Hinv Hq Hv).
      exists [pid q], [], k, order, q, e'. split_and!; try done.
      intros k' q' Hk'. by apply elem_of_nil in Hk'.
  - assert (i ∈ order) as Hin'.
    { apply elem_of_cons in Hin as [->|Hin]; [congruence|done]. }
    destruct (IH values (S r) i p e Hinv Hin' Hp He)
      as (seen & pre & j & post & q0 & e0 & -> & Hpre & Hj & He0 & ->).
    exists seen, (k :: pre), j, post, q0, e0. split_and!; try done.
    intros k' q' [->|Hk']%elem_of_cons Hq'; [congruence|eauto].
Qed.

(** The aggregate is only ever rejected with the reason of one of its
    promises. *)
Lemma all_loop_rejected_inv promises order : ∀ values r seen e,
  all_loop promises values r order = (seen, Some (Rejected e)) →
  ∃ i p, promises !! i = Some p ∧ outcome p = Rejected e.
Proof.
  induction order as [|i order IH]; intros values r seen e Hrun.
  - by destruct r.
  - destruct r as [|r]; [done|]. cbn [all_loop] in Hrun.
    destruct (promises !! i) as [p|] eqn:Hp; [|by eapply IH].
    destruct (values !! i) as [[v|]|]; [by eapply IH| |by eapply IH].
    destruct (outcome p) as [v|e'] eqn:Hv.
    + destruct (all_loop promises (<[i:=Some v]> values) r order)
        as [seen0 res] eqn:Hrec. simplify_eq. by eapply IH.
    + simplify_eq. eauto.
Qed.

Lemma Promise_all_fulfilled promises order seen values :
  Promise_all promises order = (seen, Some (Fulfilled values)) →
  outcome <$> promises = Fulfilled <$> omap id values ∧
  ∀ i p, promises !! i = Some p → pid p ∈ seen.
Proof.
  intros Hrun.
  destruct (all_loop_fulfilled _ _ _ _ _ _ (all_inv_init promises) Hrun)
    as [H0 Hseen].
  split; [by apply all_inv_done|].
  intros i p Hp. apply (Hseen i p Hp).
  apply lookup_replicate. split; [done|]. by eapply lookup_lt_Some.
Qed.

Lemma Promise_all_success promises order (vs : list A) :
  outcome <$> promises = Fulfilled <$> vs →
  (∀ i, i < length promises → i ∈ order) →
  ∃ seen, Promise_all promises order = (seen, Some (Fulfilled (Some <$> vs))).
Proof.
  intros Hvs Hcov.
  destruct (all_loop_success promises order _ _ (all_inv_init promises))
    as (seen & values & Hrun).
  - intros i [_ Hi]%lookup_replicate. by apply Hcov.
  - intros i p Hp. apply (f_equal (.!! i)) in Hvs.
    rewrite !list_lookup_fmap, Hp in Hvs. simpl in Hvs.
    destruct (vs !! i) as [v|]; simplify_eq/=. eauto.
  - exists seen. unfold Promise_all. rewrite Hrun. do 3 f_equal.
    destruct (all_loop_fulfilled _ _ _ _ _ _ (all_inv_init promises) Hrun)
      as [[Hvalues Hout]%all_inv_done _].
    rewrite Hvs in Hout. apply (inj (fmap Fulfilled)) in Hout.
    by rewrite Hvalues, <- Hout.
Qed.

Lemma Promise_all_rejected promises order i p e :
  i ∈ order → promises !! i = Some p → outcome p = Rejected e →
  ∃ seen pre j post q e',
    order = pre ++ j :: post ∧
    (∀ k q', k ∈ pre → promises !! k = Some q' → ∃ v, outcome q' = Fulfilled v) ∧
    promises !! j = Some q ∧ outcome q = Rejected e' ∧
    Promise_all promises order = (seen, Some (Rejected e')).
Proof. apply all_loop_rejected, all_inv_init. Qed.

End PromiseAll.

(** * Properties of the upload fan-out *)

Section Uploads.
Context (env : Env).
Implicit Types (fs : list File) (urls : list string) (w : World).

Lemma upload_count_app t t' :
  upload_count (t ++ t') = upload_count t + upload_count t'.
Proof. unfold upload_count. by rewrite filter_app, length_app. Qed.

Lemma save_count_app t t' :
  save_count (t ++ t') = save_count t + save_count t'.
Proof. unfold save_count. by rewrite filter_app, length_app. Qed.

Lemma upload_count_upload_events kind fs :
  upload_count (upload_events kind fs) = length fs.
Proof.
  unfold upload_count, upload_events.
  induction fs as [|f fs IH]; [done|].
  rewrite fmap_cons, filter_cons_True by done. simpl. by rewrite IH.
Qed.

Lemma upload_count_completed seen : upload_count (EvCompleted <$> seen) = 0.
Proof.
  unfold upload_count. induction seen as [|k seen IH]; [done|].
  rewrite fmap_cons, filter_cons_False by (by intros []). done.
Qed.

Lemma save_count_upload_events kind fs : save_count (upload_events kind fs) = 0.
Proof.
  unfold save_count, upload_events. induction fs as [|f fs IH]; [done|].
  rewrite fmap_cons, filter_cons_False by (by intros []). done.
Qed.

Lemma save_count_completed seen : save_count (EvCompleted <$> seen) = 0.
Proof.
  unfold save_count. induction seen as [|k seen IH]; [done|].
  rewrite fmap_cons, filter_cons_False by (by intros []). done.
Qed.

Lemma log_nil w : log [] w = w.
Proof. destruct w. unfold log. simpl. by rewrite app_nil_r. Qed.

Lemma log_log evs evs' w : log evs' (log evs w) = log (evs ++ evs') w.
Proof. unfold log. simpl. by rewrite app_assoc. Qed.

Lemma promises_of_cons base kind file fs :
  promises_of env base kind (file :: fs) =
  mkPromise base (callback (upload_stream env base (buffer file) kind))
    :: promises_of env (S base) kind fs.
Proof.
  unfold promises_of. rewrite imap_cons, Nat.add_0_r. f_equal.
  apply imap_ext. intros i f _. simpl. by rewrite Nat.add_succ_r.
Qed.

Lemma length_promises_of base kind fs :
  length (promises_of env base kind fs) = length fs.
Proof. apply length_imap. Qed.

Lemma lookup_promises_of base kind fs i :
  promises_of env base kind fs !! i =
  (λ file, mkPromise (base + i)
             (callback (upload_stream env (base + i) (buffer file) kind)))
    <$> fs !! i.
Proof. unfold promises_of. by rewrite list_lookup_imap. Qed.

(** [map] dispatches one upload per file, from left to right, and returns
    their promises in the same order. *)
Lemma array_map_uploads kind fs : ∀ w,
  array_map (λ file, uploadToCloudinary env (buffer file) kind) fs w =
  (log (upload_events kind fs) w,
   Return (promises_of env (upload_count (trace w)) kind fs)).
Proof.
  induction fs as [|file fs IH]; intros w.
  - simpl. unfold mret, M_ret. by rewrite log_nil.
  - cbn [array_map]. unfold mbind, M_bind, uploadToCloudinary at 1.
    rewrite IH. unfold mret, M_ret. rewrite log_log, promises_of_cons.
    do 3 f_equal. simpl. rewrite upload_count_app.
    f_equal. unfold upload_count. simpl. lia.
Qed.

(** The fan-out, unfolded: the uploads are dispatched, then completions are
    consumed until the aggregate promise settles. *)
Lemma upload_all_unfold kind fs w :
  upload_all env kind fs w =
  let '(seen, res) :=
    Promise_all (promises_of env (upload_count (trace w)) kind fs)
                (completion env kind) in
  (log (upload_events kind fs ++ (EvCompleted <$> seen)) w,
   match res with
   | Some (Fulfilled values) => Return (omap id values)
   | Some (Rejected e) => Throw e
   | None => Pending
   end).
Proof.
  unfold upload_all, mbind, M_bind. rewrite array_map_uploads.
  unfold await_Promise_all.
  destruct (Promise_all _ _) as [seen [[values|e]|]]; by rewrite log_log.
Qed.

Lemma uploads_succeed_outcomes base kind fs urls :
  uploads_succeed env base kind fs urls ↔
  outcome <$> promises_of env base kind fs = Fulfilled <$> urls.
Proof.
  split.
  - intros [Hlen Hurl]. apply list_eq. intros i.
    rewrite !list_lookup_fmap, lookup_promises_of.
    destruct (fs !! i) as [file|] eqn:Hf; simpl.
    + destruct (Hurl i file Hf) as (u & -> & ->). done.
    + apply lookup_ge_None in Hf.
      rewrite (proj2 (lookup_ge_None urls i)) by lia. done.
  - intros Heq. split.
    + apply (f_equal length) in Heq.
      by rewrite !length_fmap, length_promises_of in Heq.
    + intros i file Hf. apply (f_equal (.!! i)) in Heq.
      rewrite !list_lookup_fmap, lookup_promises_of, Hf in Heq. simpl in Heq.
      destruct (urls !! i) as [u|]; [|done]. exists u. split; [done|].
      simpl in Heq. destruct (upload_stream _ _ _ _); simpl in Heq; congruence.
Qed.

(** Whatever happens, the fan-out only dispatches the uploads of its batch
    and observes completions. *)
Lemma upload_all_trace kind fs w w' (o : Outcome (list string)) :
  upload_all env kind fs w = (w', o) →
  ∃ seen, w' = log (upload_events kind fs ++ (EvCompleted <$> seen)) w.
Proof.
  rewrite upload_all_unfold.
  destruct (Promise_all _ _) as [seen [[values|e]|]]; intros; simplify_eq; eauto.
Qed.

(** A returned URL list is the index-aligned list of the Object Store's
    answers, and every upload of the batch has been seen to complete. *)
Lemma upload_all_return kind fs w w' urls :
  upload_all env kind fs w = (w', Return urls) →
  uploads_succeed env (upload_count (trace w)) kind fs urls ∧
  ∃ seen, w' = log (upload_events kind fs ++ (EvCompleted <$> seen)) w ∧
          ∀ i, i < length fs → upload_count (trace w) + i ∈ seen.
Proof.
  rewrite upload_all_unfold.
  destruct (Promise_all _ _) as [seen [[values|e]|]] eqn:Hrun; intros; simplify_eq.
  apply Promise_all_fulfilled in Hrun as [Hout Hseen]. split.
  - by apply uploads_succeed_outcomes.
  - exists seen. split; [done|]. intros i Hi.
    destruct (lookup_lt_is_Some_2 fs i Hi) as [file Hf].
    specialize (Hseen i _ ltac:(by rewrite lookup_promises_of, Hf)). done.
Qed.

Lemma upload_all_success kind fs w urls :
  uploads_succeed env (upload_count (trace w)) kind fs urls →
  all_complete env kind (length fs) →
  ∃ w', upload_all env kind fs w = (w', Return urls).
Proof.
  intros Hok%uploads_succeed_outcomes Hall. rewrite upload_all_unfold.
  destruct (Promise_all_success _ (completion env kind) _ Hok) as [seen ->].
  { intros i. rewrite length_promises_of. apply Hall. }
  eexists. by rewrite omap_id_Some.
Qed.

(** A failed upload that completes makes the fan-out throw, with the
    error of the first failed upload of the completion order. *)
Lemma upload_all_failure kind fs w i e :
  upload_fails env (upload_count (trace w)) kind fs i e →
  i ∈ completion env kind →
  ∃ w' pre j post e',
    completion env kind = pre ++ j :: post ∧
    (∀ k e'', k ∈ pre → ¬ upload_fails env (upload_count (trace w)) kind fs k e'') ∧
    upload_fails env (upload_count (trace w)) kind fs j e' ∧
    upload_all env kind fs w = (w', Throw e').
Proof.
  intros (file & Hf & Herr) Hin. rewrite upload_all_unfold.
  destruct (Promise_all_rejected
              (promises_of env (upload_count (trace w)) kind fs)
              (completion env kind) i _ e Hin
              ltac:(by rewrite lookup_promises_of, Hf))
    as (seen & pre & j & post & q & e' & Hord & Hpre & Hq & He' & ->).
  { simpl. by rewrite Herr. }
  rewrite lookup_promises_of in Hq.
  destruct (fs !! j) as [fj|] eqn:Hfj; simplify_eq/=.
  eexists _, pre, j, post, e'. split_and!; [done| | |done].
  - intros k e'' Hk (fk & Hfk & Hek).
    destruct (Hpre k _ Hk ltac:(by rewrite lookup_promises_of, Hfk)) as [v Hv].
    simpl in Hv. rewrite Hek in Hv. done.
  - exists fj. split; [done|].
    destruct (upload_stream env (upload_count (trace w) + j) (buffer fj) kind);
      by simplify_eq/=.
Qed.

(** The fan-out only throws the error of a failed upload of its batch. *)
Lemma upload_all_throw kind fs w w' e :
  upload_all env kind fs w = (w', Throw e) →
  ∃ i, upload_fails env (upload_count (trace w)) kind fs i e.
Proof.
  rewrite upload_all_unfold.
  destruct (Promise_all _ _) as [seen [[values|e']|]] eqn:Hrun; intros; simplify_eq.
  apply all_loop_rejected_inv in Hrun as (i & p & Hp & He).
  rewrite lookup_promises_of in Hp.
  destruct (fs !! i) as [file|] eqn:Hf; simplify_eq/=.
  exists i, file. split; [done|].
  destruct (upload_stream env (upload_count (trace w) + i) (buffer file) kind);
    by simplify_eq/=.
Qed.

(** No list is returned when an upload of the batch fails, whether or not
    that upload ever completes. *)
Lemma upload_all_no_return kind fs w i e w' urls :
  upload_fails env (upload_count (trace w)) kind fs i e →
  upload_all env kind fs w ≠ (w', Return urls).
Proof.
  intros (file & Hf & Herr) [[_ Hok] _]%upload_all_return.
  destruct (Hok i file Hf) as (u & _ & Hu). congruence.
Qed.

(** The fan-out makes exactly one Object Store call per file and touches
    neither the collection nor [save]. *)
Lemma upload_all_world kind fs w w' (o : Outcome (list string)) :
  upload_all env kind fs w = (w', o) →
  upload_count (trace w') = upload_count (trace w) + length fs ∧
  save_count (trace w') = save_count (trace w) ∧
  forms w' = forms w.
Proof.
  intros [seen ->]%upload_all_trace. simpl.
  rewrite !upload_count_app, !save_count_app, upload_count_upload_events,
    upload_count_completed, save_count_upload_events, save_count_completed.
  split_and!; [lia|lia|done].
Qed.

Lemma upload_field_default kind field w :
  upload_field env kind field w = upload_all env kind (default [] field) w.
Proof.
  destruct field as [fs|]; [done|]. simpl.
  rewrite upload_all_unfold. unfold Promise_all.
  destruct (completion env kind); simpl; by rewrite log_nil.
Qed.

End Uploads.

(** * Properties of the handlers *)

Section Handlers.
Context (env : Env).
Implicit Types (req : Request) (w : World).

(** The [try] block, one [await] at a time. *)
Lemma submit_form_try_unfold req w :
  submit_form_try env req w =
  if no_files req then (w, Return response_400) else
  match upload_all env rt_image (photos req) w with
  | (w1, Return photoUrls) =>
    match upload_all env rt_video (videos req) w1 with
    | (w2, Return videoUrls) =>
      let doc := new_Form env (body req) photoUrls videoUrls in
      match save_error env doc with
      | Some e => (log [EvSave doc] w2, Throw e)
      | None => (mkWorld (trace w2 ++ [EvSave doc]) (forms w2 ++ [doc]),
                 Return (response_200 doc))
      end
    | (w2, Throw e) => (w2, Throw e)
    | (w2, Pending) => (w2, Pending)
    end
  | (w1, Throw e) => (w1, Throw e)
  | (w1, Pending) => (w1, Pending)
  end.
Proof.
  unfold submit_form_try, photos, videos. destruct (no_files req); [done|].
  set (ps := files req ≫= photo). set (vs := files req ≫= video).
  unfold mbind, M_bind. rewrite (upload_field_default env rt_image).
  destruct (upload_all env rt_image (default [] ps) w) as [w1 [purls|e|]];
    try done.
  rewrite (upload_field_default env rt_video).
  destruct (upload_all env rt_video (default [] vs) w1) as [w2 [vurls|e|]];
    try done.
  unfold save. simpl. by destruct (save_error env _).
Qed.

Lemma submit_form_unfold req w :
  submit_form env req w =
  match submit_form_try env req w with
  | (w', Throw err) => (w', Return (response_500 (message err)))
  | r => r
  end.
Proof. done. Qed.

Lemma no_files_spec req :
  no_files req = true ↔ files req ≫= photo = None ∧ files req ≫= video = None.
Proof.
  unfold no_files. destruct (files req) as [[[p|] [v|]]|]; simpl;
    intuition congruence.
Qed.

(** The [catch] clause changes the outcome, never the world. *)
Lemma submit_form_try_of req w w' (o : Outcome Response) :
  submit_form env req w = (w', o) →
  ∃ o', submit_form_try env req w = (w', o').
Proof.
  rewrite submit_form_unfold.
  destruct (submit_form_try env req w) as [w1 [r|e|]]; intros; simplify_eq; eauto.
Qed.

(** The two ways the [try] block can end: either [save] was not reached,
    and then the collection is as before, or both batches returned their
    URL lists and [save] was invoked on the document built from them. *)
Lemma submit_form_try_outcomes req w w' (o : Outcome Response) :
  submit_form_try env req w = (w', o) →
  (save_count (trace w') = save_count (trace w) ∧ forms w' = forms w ∧
   ∀ r, o = Return r → r = response_400) ∨
  (∃ purls vurls w2,
     no_files req = false ∧
     uploads_succeed env (upload_count (trace w)) rt_image (photos req) purls ∧
     uploads_succeed env (upload_count (trace w) + length (photos req))
       rt_video (videos req) vurls ∧
     save_count (trace w2) = save_count (trace w) ∧ forms w2 = forms w ∧
     (w', o) =
     match save_error env (new_Form env (body req) purls vurls) with
     | Some e => (log [EvSave (new_Form env (body req) purls vurls)] w2, Throw e)
     | None => (mkWorld (trace w2 ++ [EvSave (new_Form env (body req) purls vurls)])
                        (forms w2 ++ [new_Form env (body req) purls vurls]),
                Return (response_200 (new_Form env (body req) purls vurls)))
     end).
Proof.
  rewrite submit_form_try_unfold.
  destruct (no_files req) eqn:Hcheck.
  { intros [= <- <-]. left. split_and!; [done|done|]. by intros r [= <-]. }
  destruct (upload_all env rt_image (photos req) w) as [w1 o1] eqn:Hp.
  pose proof (upload_all_world env _ _ _ _ _ Hp) as (Hc1 & Hs1 & Hf1).
  destruct o1 as [purls|e|];
    [|intros [= <- <-]; left; by split_and!..].
  destruct (upload_all env rt_video (videos req) w1) as [w2 o2] eqn:Hv.
  pose proof (upload_all_world env _ _ _ _ _ Hv) as (Hc2 & Hs2 & Hf2).
  destruct o2 as [vurls|e|];
    [|intros [= <- <-]; left; split_and!; [congruence|congruence|done]..].
  intros Hrun. right. exists purls, vurls, w2.
  apply upload_all_return in Hp as [Hpok _].
  apply upload_all_return in Hv as [Hvok _]. rewrite Hc1 in Hvok.
  split_and!; [done|done|done|congruence|congruence|].
  cbv zeta in Hrun. by destruct (save_error env _).
Qed.

(** Dispatching image uploads and observing completions involves no video
    upload. *)
Lemma no_video_upload_in_photo_batch fs seen buf :
  EvUpload buf rt_video ∉ upload_events rt_image fs ++ (EvCompleted <$> seen).
Proof.
  unfold upload_events.
  intros [Hin|Hin]%elem_of_app; apply list_elem_of_fmap in Hin as (x & Hx & _);
    discriminate Hx.
Qed.

Lemma split_after {A} (l1 l2 pre post : list A) x :
  l1 ++ l2 = pre ++ x :: post → x ∉ l1 → ∃ k, pre = l1 ++ k.
Proof.
  revert pre. induction l1 as [|a l1 IH]; intros pre Heq Hx; [by exists pre|].
  destruct pre as [|b pre]; simplify_eq/=.
  - destruct Hx. apply list_elem_of_here.
  - destruct (IH pre) as [k ->]; [done| |by exists k].
    intros Hin. apply Hx. by apply list_elem_of_further.
Qed.

(** The events of the [try] block: either nothing beyond the photo batch
    happened, or the photo batch returned, after every one of its uploads
    was seen to complete, and the rest followed. *)
Lemma submit_form_try_trace req w w' (o : Outcome Response) :
  submit_form_try env req w = (w', o) →
  (∃ seen, trace w' = trace w ++ upload_events rt_image (photos req)
                              ++ (EvCompleted <$> seen)) ∨
  (∃ purls seen rest,
     uploads_succeed env (upload_count (trace w)) rt_image (photos req) purls ∧
     (∀ i, i < length (photos req) → upload_count (trace w) + i ∈ seen) ∧
     trace w' = trace w ++ (upload_events rt_image (photos req)
                            ++ (EvCompleted <$> seen)) ++ rest).
Proof.
  rewrite submit_form_try_unfold.
  destruct (no_files req) eqn:Hcheck.
  { intros [= <- <-]. left. exists [].
    apply no_files_spec in Hcheck as [Hp _]. unfold photos. rewrite Hp. simpl.
    by rewrite app_nil_r. }
  destruct (upload_all env rt_image (photos req) w) as [w1 o1] eqn:Hp.
  destruct o1 as [purls|e|];
    [|apply upload_all_trace in Hp as [seen ->]; intros [= <- <-]; left; eauto..].
  apply upload_all_return in Hp as (Hok & seen & -> & Hseen).
  destruct (upload_all env rt_video (videos req) _) as [w2 o2] eqn:Hv.
  apply upload_all_trace in Hv as [seen2 ->].
  intros Hrun. right. exists purls, seen.
  destruct o2 as [vurls|e|];
    [|simplify_eq/=; eexists; split_and!; [done|done|];
      by rewrite <- !app_assoc..].
  cbv zeta in Hrun. destruct (save_error env _); simplify_eq/=.
  - eexists. split_and!; [done|done|]. by rewrite <- !app_assoc.
  - eexists. split_and!; [done|done|]. by rewrite <- !app_assoc.
Qed.

(** When every upload succeeds and completes, [save] is reached. *)
Lemma submit_form_try_reaches_save req w purls vurls :
  no_files req = false →
  uploads_succeed env (upload_count (trace w)) rt_image (photos req) purls →
  all_complete env rt_image (length (photos req)) →
  uploads_succeed env (upload_count (trace w) + length (photos req))
    rt_video (videos req) vurls →
  all_complete env rt_video (length (videos req)) →
  ∃ w2,
    save_count (trace w2) = save_count (trace w) ∧ forms w2 = forms w ∧
    submit_form_try env req w =
    match save_error env (new_Form env (body req) purls vurls) with
    | Some e => (log [EvSave (new_Form env (body req) purls vurls)] w2, Throw e)
    | None => (mkWorld (trace w2 ++ [EvSave (new_Form env (body req) purls vurls)])
                       (forms w2 ++ [new_Form env (body req) purls vurls]),
               Return (response_200 (new_Form env (body req) purls vurls)))
    end.
Proof.
  intros Hcheck Hpok Hpall Hvok Hvall.
  rewrite submit_form_try_unfold, Hcheck.
  destruct (upload_all_success env _ _ _ _ Hpok Hpall) as [w1 Hp]. rewrite Hp.
  pose proof (upload_all_world env _ _ _ _ _ Hp) as (Hc1 & Hs1 & Hf1).
  rewrite <- Hc1 in Hvok.
  destruct (upload_all_success env _ _ _ _ Hvok Hvall) as [w2 Hv]. rewrite Hv.
  pose proof (upload_all_world env _ _ _ _ _ Hv) as (Hc2 & Hs2 & Hf2).
  exists w2. split_and!; [congruence|congruence|done].
Qed.

End Handlers.

(** * The claims *)

(** C1.  The URL list the fan-out returns is index-aligned with its input:
    it has the length of the input and its [i]-th URL is the one the Object
    Store answered for the [i]-th file.  This holds for every completion
    order (the order is a component of [env]).  And a list is returned: when
    the Object Store answers every upload of the batch with a URL and every
    upload completes, in whatever order, the fan-out returns exactly the list
    of those URLs. *)
Theorem upload_all_index_aligned (env : Env) (kind : ResourceType)
    (fs : list File) (w : World) :
  let base := upload_count (trace w) in
  (∀ w' urls, upload_all env kind fs w = (w', Return urls) →
     uploads_succeed env base kind fs urls) ∧
  (∀ urls, uploads_succeed env base kind fs urls →
     all_complete env kind (length fs) →
     ∃ w', upload_all env kind fs w = (w', Return urls)).
Proof.
  intros base. split.
  - intros w' urls Hrun. by apply upload_all_return in Hrun as [Hok _].
  - intros urls Hok Hall. by apply upload_all_success.
Qed.

Lemma upload_all_index_aligned_witness :
  uploads_succeed Examples.envA 0 rt_image [Examples.p1; Examples.p2] ["U_p1"; "U_p2"] ∧
  all_complete Examples.envA rt_image 2 ∧
  ∃ w', upload_all Examples.envA rt_image [Examples.p1; Examples.p2] Examples.w0
        = (w', Return ["U_p1"; "U_p2"]).
Proof.
  assert (uploads_succeed Examples.envA 0 rt_image
            [Examples.p1; Examples.p2] ["U_p1"; "U_p2"]) as Hok.
  { split; [reflexivity|].
    intros [|[|i]] file Hf; simplify_eq/=; eexists; split; reflexivity. }
  assert (all_complete Examples.envA rt_image 2) as Hall.
  { intros [|[|i]] Hi; [simpl; repeat constructor..|lia]. }
  split; [exact Hok|]. split; [exact Hall|].
  exact (proj2 (upload_all_index_aligned Examples.envA rt_image
                  [Examples.p1; Examples.p2] Examples.w0) _ Hok Hall).
Defined.

(** C3.  The fan-out is all-or-nothing.  When the Object Store answers some
    upload of the batch with an error, no URL list is ever returned to the
    caller, partial or not; and once that failed upload completes, the
    fan-out throws the error of a failed upload of the batch, namely of the
    one that is first in the completion order. *)
Theorem upload_all_all_or_nothing (env : Env) (kind : ResourceType)
    (fs : list File) (w : World) (i : nat) (e : Err) :
  let base := upload_count (trace w) in
  upload_fails env base kind fs i e →
  (∀ w' urls, upload_all env kind fs w ≠ (w', Return urls)) ∧
  (i ∈ completion env kind →
   ∃ w' pre j post e',
     completion env kind = pre ++ j :: post ∧
     (∀ k e'', k ∈ pre → ¬ upload_fails env base kind fs k e'') ∧
     upload_fails env base kind fs j e' ∧
     upload_all env kind fs w = (w', Throw e')).
Proof.
  intros base Hfail. split.
  - intros w' urls. by eapply upload_all_no_return.
  - intros Hin. by eapply upload_all_failure.
Qed.

Lemma upload_all_all_or_nothing_witness :
  upload_fails Examples.envB 0 rt_image [Examples.p1] 0 (mkErr "Invalid image file") ∧
  ∀ w' urls, upload_all Examples.envB rt_image [Examples.p1] Examples.w0
             ≠ (w', Return urls).
Proof.
  assert (upload_fails Examples.envB 0 rt_image [Examples.p1] 0
            (mkErr "Invalid image file")) as Hfail.
  { exists Examples.p1. split; reflexivity. }
  split; [exact Hfail|].
  exact (proj1 (upload_all_all_or_nothing Examples.envB rt_image [Examples.p1]
                  Examples.w0 0 _ Hfail)).
Defined.

(** C5.  For a kind whose attachment collection is empty or absent, the
    upload step yields the empty URL list and leaves the world as it was: no
    Object Store call is made. *)
Theorem upload_field_empty (env : Env) (kind : ResourceType)
    (field : option (list File)) (w : World) :
  default [] field = [] →
  upload_field env kind field w = (w, Return []).
Proof.
  intros Hempty. rewrite upload_field_default, Hempty, upload_all_unfold.
  unfold Promise_all. destruct (completion env kind); simpl; by rewrite log_nil.
Qed.

Lemma upload_field_empty_witness :
  default [] (Some (@nil File)) = [] ∧
  upload_field Examples.envA rt_video (Some []) Examples.w0
  = (Examples.w0, Return []).
Proof. split; [reflexivity|]. apply upload_field_empty. reflexivity. Defined.

(** A request whose [req.files] is missing or carries neither the [photo]
    nor the [video] key is answered with 400 and the world is left as it
    was. *)
Lemma no_attachment_keys_rejected (env : Env) (req : Request) (w : World) :
  files req ≫= photo = None → files req ≫= video = None →
  submit_form env req w = (w, Return response_400).
Proof.
  intros Hp Hv. rewrite submit_form_unfold, submit_form_try_unfold.
  by rewrite (proj2 (no_files_spec req) (conj Hp Hv)).
Qed.

(** C4.  Every submission that reaches the handler with an empty photo
    collection and an empty video collection is answered with 400 and the
    message "At least one photo or video is required".  The world is left as
    it was: the rejection comes before any Object Store call. *)
Theorem no_attachments_rejected (env : Env) (req : Request) (w : World) :
  from_multer req →
  photos req = [] → videos req = [] →
  submit_form env req w
  = (w, Return (mkResponse 400 (JMessage "At least one photo or video is required"))).
Proof.
  intros Hshape Hps Hvs. apply no_attachment_keys_rejected.
  - unfold photos in Hps. destruct (files req) as [fs|] eqn:Hfs; [|done].
    destruct (Hshape fs Hfs) as [Hp _]. simpl in *.
    by destruct (photo fs) as [[|f l]|].
  - unfold videos in Hvs. destruct (files req) as [fs|] eqn:Hfs; [|done].
    destruct (Hshape fs Hfs) as [_ Hv]. simpl in *.
    by destruct (video fs) as [[|f l]|].
Qed.

(** Scenario C of the specification: a submission with no files at all. *)
Lemma no_attachments_rejected_witness :
  let req := mkRequest (Some (mkFiles None None)) (Body.mk (Some "Ada") None) in
  from_multer req ∧ photos req = [] ∧ videos req = [] ∧
  submit_form Examples.envA req Examples.w0
  = (Examples.w0,
     Return (mkResponse 400 (JMessage "At least one photo or video is required"))).
Proof.
  intros req.
  assert (from_multer req) as Hshape.
  { intros fs [= <-]. split; discriminate. }
  split; [exact Hshape|]. split; [reflexivity|]. split; [reflexivity|].
  apply no_attachments_rejected; [exact Hshape|reflexivity|reflexivity].
Defined.

(** C10.  The attachment check looks at the presence of the keys only.  When
    both keys are present and bound to empty lists the check passes, the
    response is never the 400 rejection, and, the save succeeding, a record
    with empty [photoUrls] and [videoUrls] is persisted (after no Object
    Store call at all) and returned. *)
Theorem empty_lists_are_persisted (env : Env) (req : Request) (fs : Files)
    (w : World) :
  files req = Some fs → photo fs = Some [] → video fs = Some [] →
  let doc := mkForm (ObjectId env) (Body.name (body req)) (Body.address (body req)) [] [] in
  no_files req = false ∧
  (∀ w' r, submit_form env req w = (w', Return r) → status r ≠ 400) ∧
  (save_error env doc = None →
   submit_form env req w
   = (mkWorld (trace w ++ [EvSave doc]) (forms w ++ [doc]), Return (response_200 doc))).
Proof.
  intros Hfs Hp Hv doc.
  assert (no_files req = false) as Hcheck.
  { unfold no_files. by rewrite Hfs, Hp, Hv. }
  assert (photos req = []) as Hps by (unfold photos; by rewrite Hfs; simpl; rewrite Hp).
  assert (videos req = []) as Hvs by (unfold videos; by rewrite Hfs; simpl; rewrite Hv).
  assert (∀ kind w0, upload_all env kind [] w0 = (w0, Return [])) as Hnil.
  { intros kind w0. rewrite <- (upload_field_default env kind (Some [])).
    rewrite (upload_field_default env kind (Some [])), upload_all_unfold.
    unfold Promise_all. destruct (completion env kind); simpl; by rewrite log_nil. }
  rewrite submit_form_unfold, submit_form_try_unfold, Hcheck, Hps, Hvs, !Hnil.
  cbv zeta. change (new_Form env (body req) [] []) with doc.
  split; [done|]. split.
  - intros w' r. destruct (save_error env doc); intros; by simplify_eq.
  - by intros ->.
Qed.

Lemma empty_lists_are_persisted_witness :
  let req := mkRequest (Some (mkFiles (Some []) (Some []))) (Body.mk (Some "Ada") None) in
  let doc := mkForm 7 (Some "Ada") None [] [] in
  submit_form Examples.envA req Examples.w0
  = (mkWorld [EvSave doc] [doc], Return (response_200 doc)).
Proof.
  intros req doc.
  exact (proj2 (proj2 (empty_lists_are_persisted Examples.envA req _ Examples.w0
                         eq_refl eq_refl eq_refl)) eq_refl).
Defined.

(** C8.  [GET /forms] answers 200 with the array of all the documents that
    are in the collection; when [find] fails it answers 500 with the message
    "Error fetching forms".  Either way the collection is left untouched. *)
Theorem get_forms_spec (env : Env) (w : World) :
  (find_error env = None →
   get_forms env w = (w, Return (mkResponse 200 (JForms (forms w))))) ∧
  (∀ e, find_error env = Some e →
   get_forms env w = (w, Return (mkResponse 500 (JMessage "Error fetching forms")))).
Proof.
  unfold get_forms, try_catch, find, mbind, M_bind.
  split; [intros ->|intros e ->]; reflexivity.
Qed.

Lemma get_forms_spec_witness :
  let doc := mkForm 7 (Some "Ada") None ["U_p1"] [] in
  let w := mkWorld [] [doc; doc] in
  get_forms Examples.envA w = (w, Return (mkResponse 200 (JForms [doc; doc]))) ∧
  get_forms Examples.envDown w
  = (w, Return (mkResponse 500 (JMessage "Error fetching forms"))).
Proof.
  intros doc w. split.
  - exact (proj1 (get_forms_spec Examples.envA w) eq_refl).
  - exact (proj2 (get_forms_spec Examples.envDown w) _ eq_refl).
Defined.

(** C6.  When the request passes the attachment check, the Object Store
    answers every photo upload and every video upload with a URL, every
    upload completes, and the save succeeds, the response is 200 with the
    message "Form submitted successfully!" and the record; the record is
    appended to the collection and carries the request's name and address
    unchanged, the photo URLs in the order of the photos and the video URLs
    in the order of the videos. *)
Theorem submit_form_success (env : Env) (req : Request) (w : World)
    (purls vurls : list string) :
  let base := upload_count (trace w) in
  let doc := mkForm (ObjectId env) (Body.name (body req)) (Body.address (body req))
                    purls vurls in
  no_files req = false →
  uploads_succeed env base rt_image (photos req) purls →
  all_complete env rt_image (length (photos req)) →
  uploads_succeed env (base + length (photos req)) rt_video (videos req) vurls →
  all_complete env rt_video (length (videos req)) →
  save_error env doc = None →
  ∃ w', submit_form env req w
        = (w', Return (mkResponse 200 (JSubmitted "Form submitted successfully!" doc))) ∧
        forms w' = forms w ++ [doc].
Proof.
  intros base doc Hcheck Hpok Hpall Hvok Hvall Hsave.
  destruct (submit_form_try_reaches_save env req w purls vurls
              Hcheck Hpok Hpall Hvok Hvall) as (w2 & _ & Hforms & Hrun).
  change (new_Form env (body req) purls vurls) with doc in Hrun.
  rewrite Hsave in Hrun. rewrite submit_form_unfold, Hrun.
  eexists. split; [reflexivity|]. simpl. by rewrite Hforms.
Qed.

(** Scenario A of the specification. *)
Lemma submit_form_success_witness :
  let doc := mkForm 7 (Some "Ada") (Some "1 Infinite Loop") ["U_p1"; "U_p2"] ["U_v1"] in
  ∃ w', submit_form Examples.envA Examples.reqA Examples.w0
        = (w', Return (mkResponse 200 (JSubmitted "Form submitted successfully!" doc))) ∧
        forms w' = [doc].
Proof.
  intros doc.
  apply (submit_form_success Examples.envA Examples.reqA Examples.w0
           ["U_p1"; "U_p2"] ["U_v1"]).
  - reflexivity.
  - split; [reflexivity|].
    intros [|[|i]] file Hf; simplify_eq/=; eexists; split; reflexivity.
  - intros [|[|i]] Hi; [simpl; repeat constructor..|cbv in Hi; lia].
  - split; [reflexivity|].
    intros [|i] file Hf; simplify_eq/=; eexists; split; reflexivity.
  - intros [|i] Hi; [simpl; repeat constructor|cbv in Hi; lia].
  - reflexivity.
Defined.

(** C2, as stated, fails in the "if" direction: every attachment is uploaded
    successfully, the save is refused, and no record is persisted. *)
Lemma record_iff_all_uploaded_fails :
  ¬ (∀ (env : Env) (req : Request) (w w' : World) (o : Outcome Response),
       submit_form env req w = (w', o) →
       ((∃ doc, forms w' = forms w ++ [doc]) ↔
        (∃ purls vurls,
           uploads_succeed env (upload_count (trace w)) rt_image (photos req) purls ∧
           uploads_succeed env (upload_count (trace w) + length (photos req))
             rt_video (videos req) vurls))).
Proof.
  intros Hclaim.
  destruct (proj2 (Hclaim Examples.envDown Examples.reqA Examples.w0 _ _ eq_refl))
    as [doc Hdoc]; [|vm_compute in Hdoc; discriminate Hdoc].
  exists ["U_p1"; "U_p2"], ["U_v1"]. split.
  - split; [reflexivity|].
    intros [|[|i]] file Hf; simplify_eq/=; eexists; split; reflexivity.
  - split; [reflexivity|].
    intros [|i] file Hf; simplify_eq/=; eexists; split; reflexivity.
Qed.

(** C2, amended.  A record is persisted, and [save] is invoked at all, only
    if every attachment of the submission was uploaded successfully; when
    the upload of any attachment fails, [save] is not invoked and the
    collection is unchanged.  For a request that passes the attachment check
    and whose uploads all complete, a record is persisted exactly when every
    attachment is uploaded successfully and the save of the resulting
    document succeeds. *)
Theorem record_only_after_all_uploads (env : Env) (req : Request)
    (w w' : World) (o : Outcome Response) :
  let base := upload_count (trace w) in
  let all_uploaded purls vurls :=
    uploads_succeed env base rt_image (photos req) purls ∧
    uploads_succeed env (base + length (photos req)) rt_video (videos req) vurls in
  submit_form env req w = (w', o) →
  (save_count (trace w') ≠ save_count (trace w) ∨ forms w' ≠ forms w →
   ∃ purls vurls, all_uploaded purls vurls) ∧
  (∀ i e,
     upload_fails env base rt_image (photos req) i e ∨
     upload_fails env (base + length (photos req)) rt_video (videos req) i e →
     save_count (trace w') = save_count (trace w) ∧ forms w' = forms w) ∧
  (no_files req = false →
   all_complete env rt_image (length (photos req)) →
   all_complete env rt_video (length (videos req)) →
   ((∃ doc, forms w' = forms w ++ [doc]) ↔
    (∃ purls vurls, all_uploaded purls vurls ∧
                    save_error env (new_Form env (body req) purls vurls) = None))).
Proof.
  intros base all_uploaded Hrun. subst all_uploaded. cbv beta.
  destruct (submit_form_try_of env _ _ _ _ Hrun) as [o' Htry].
  pose proof (submit_form_try_outcomes env _ _ _ _ Htry) as Hcases.
  split_and!.
  - intros Hchanged.
    destruct Hcases as [(Hs & Hf & _)|(purls & vurls & w2 & _ & Hp & Hv & _)].
    + destruct Hchanged; congruence.
    + eauto.
  - intros i e Hfail.
    destruct Hcases as [(Hs & Hf & _)|(purls & vurls & w2 & _ & [_ Hp] & [_ Hv] & _)];
      [done|].
    destruct Hfail as [(file & Hfile & Herr)|(file & Hfile & Herr)].
    + destruct (Hp i file Hfile) as (u & _ & Hu). fold base in Hu. congruence.
    + destruct (Hv i file Hfile) as (u & _ & Hu). fold base in Hu. congruence.
  - intros Hcheck Hpall Hvall. split.
    + intros [doc Hdoc].
      destruct Hcases as [(_ & Hf & _)|(purls & vurls & w2 & _ & Hp & Hv & _ & Hf2 & Heq)].
      { rewrite Hf in Hdoc. apply (f_equal length) in Hdoc.
        rewrite length_app in Hdoc. simpl in Hdoc. lia. }
      exists purls, vurls. split; [done|].
      destruct (save_error env _) as [e|]; [|done]. simplify_eq/=.
      rewrite Hf2 in Hdoc. apply (f_equal length) in Hdoc.
      rewrite length_app in Hdoc. simpl in Hdoc. lia.
    + intros (purls & vurls & [Hp Hv] & Hsave).
      destruct (submit_form_try_reaches_save env req w purls vurls
                  Hcheck Hp Hpall Hv Hvall) as (w2 & _ & Hf2 & Htry').
      rewrite Hsave, Htry in Htry'. simplify_eq/=. rewrite Hf2. eauto.
Qed.

(** Scenario B of the specification: the only photo is refused. *)
Lemma record_only_after_all_uploads_witness :
  let r := submit_form Examples.envB Examples.reqB Examples.w0 in
  upload_fails Examples.envB 0 rt_image [Examples.p1] 0 (mkErr "Invalid image file") ∧
  save_count (trace (fst r)) = 0 ∧ forms (fst r) = [].
Proof.
  intros r.
  assert (upload_fails Examples.envB 0 rt_image [Examples.p1] 0
            (mkErr "Invalid image file")) as Hfail.
  { exists Examples.p1. split; reflexivity. }
  split; [exact Hfail|].
  exact (proj1 (proj2 (record_only_after_all_uploads Examples.envB Examples.reqB
                         Examples.w0 (fst r) (snd r) eq_refl)) 0 _ (or_introl Hfail)).
Defined.

(** C7.  No failure leaves the handler: its outcome is never a thrown
    exception.  Every exception thrown inside the [try] block is answered
    with 500, the message "Something went wrong" and the exception's own
    message, and such an exception is always the error of a failed upload or
    of the refused save.  In particular a failed photo upload, a failed video
    upload and a refused save each produce that response. *)
Theorem submit_form_failures_caught (env : Env) (req : Request) (w : World) :
  let base := upload_count (trace w) in
  let vbase := base + length (photos req) in
  (∀ w' e, submit_form env req w ≠ (w', Throw e)) ∧
  (∀ w' e, submit_form_try env req w = (w', Throw e) →
     submit_form env req w
     = (w', Return (mkResponse 500 (JMessageError "Something went wrong" (message e)))) ∧
     ((∃ i, upload_fails env base rt_image (photos req) i e) ∨
      (∃ i, upload_fails env vbase rt_video (videos req) i e) ∨
      (∃ purls vurls, save_error env (new_Form env (body req) purls vurls) = Some e))) ∧
  (no_files req = false →
   (∀ i e, upload_fails env base rt_image (photos req) i e →
           i ∈ completion env rt_image →
      ∃ w' j e', upload_fails env base rt_image (photos req) j e' ∧
                 submit_form env req w = (w', Return (response_500 (message e')))) ∧
   (∀ purls i e,
      uploads_succeed env base rt_image (photos req) purls →
      all_complete env rt_image (length (photos req)) →
      upload_fails env vbase rt_video (videos req) i e →
      i ∈ completion env rt_video →
      ∃ w' j e', upload_fails env vbase rt_video (videos req) j e' ∧
                 submit_form env req w = (w', Return (response_500 (message e')))) ∧
   (∀ purls vurls e,
      uploads_succeed env base rt_image (photos req) purls →
      all_complete env rt_image (length (photos req)) →
      uploads_succeed env vbase rt_video (videos req) vurls →
      all_complete env rt_video (length (videos req)) →
      save_error env (new_Form env (body req) purls vurls) = Some e →
      ∃ w', submit_form env req w = (w', Return (response_500 (message e))))).
Proof.
  intros base vbase. split_and!.
  - intros w' e. rewrite submit_form_unfold.
    by destruct (submit_form_try env req w) as [w1 [r|e'|]].
  - intros w' e Htry. split.
    { by rewrite submit_form_unfold, Htry. }
    rewrite submit_form_try_unfold in Htry.
    destruct (no_files req); [done|].
    destruct (upload_all env rt_image (photos req) w) as [w1 [purls|e1|]] eqn:Hp;
      [|simplify_eq; left; by eapply upload_all_throw|done].
    pose proof (upload_all_world env _ _ _ _ _ Hp) as (Hc1 & _ & _).
    destruct (upload_all env rt_video (videos req) w1) as [w2 [vurls|e2|]] eqn:Hv;
      [| |done].
    + cbv zeta in Htry. right. right. exists purls, vurls.
      destruct (save_error env _); by simplify_eq.
    + simplify_eq. right. left. apply upload_all_throw in Hv. by rewrite Hc1 in Hv.
  - intros Hcheck. split_and!.
    + intros i e Hfail Hin.
      destruct (upload_all_failure env _ _ _ _ _ Hfail Hin)
        as (w' & pre & j & post & e' & _ & _ & Hj & Hrun).
      exists w', j, e'. split; [done|].
      by rewrite submit_form_unfold, submit_form_try_unfold, Hcheck, Hrun.
    + intros purls i e Hpok Hpall Hfail Hin.
      destruct (upload_all_success env _ _ _ _ Hpok Hpall) as [w1 Hp].
      pose proof (upload_all_world env _ _ _ _ _ Hp) as (Hc1 & _ & _).
      unfold vbase, base in Hfail. rewrite <- Hc1 in Hfail.
      destruct (upload_all_failure env _ _ _ _ _ Hfail Hin)
        as (w' & pre & j & post & e' & _ & _ & Hj & Hrun).
      exists w', j, e'. split; [unfold vbase, base; by rewrite <- Hc1|].
      by rewrite submit_form_unfold, submit_form_try_unfold, Hcheck, Hp, Hrun.
    + intros purls vurls e Hpok Hpall Hvok Hvall Hsave.
      destruct (submit_form_try_reaches_save env req w purls vurls
                  Hcheck Hpok Hpall Hvok Hvall) as (w2 & _ & _ & Hrun).
      rewrite Hsave in Hrun. eexists. by rewrite submit_form_unfold, Hrun.
Qed.

(** Scenario B of the specification: the refused photo yields the 500
    response citing Cloudinary's error. *)
Lemma submit_form_failures_caught_witness :
  upload_fails Examples.envB 0 rt_image [Examples.p1] 0 (mkErr "Invalid image file") ∧
  ∃ w' j e', upload_fails Examples.envB 0 rt_image [Examples.p1] j e' ∧
             submit_form Examples.envB Examples.reqB Examples.w0
             = (w', Return (response_500 (message e'))).
Proof.
  assert (upload_fails Examples.envB 0 rt_image [Examples.p1] 0
            (mkErr "Invalid image file")) as Hfail.
  { exists Examples.p1. split; reflexivity. }
  split; [exact Hfail|].
  apply (proj1 (proj2 (proj2 (submit_form_failures_caught Examples.envB
                                Examples.reqB Examples.w0)) eq_refl) 0 _ Hfail).
  simpl. repeat constructor.
Defined.

(** C9.  In the events of one submission, every dispatch of a video upload
    comes after the completion of each photo upload of that submission; and
    when the Object Store answers any photo upload with an error, no video
    upload is dispatched at all. *)
Theorem videos_after_photos (env : Env) (req : Request) (w w' : World)
    (o : Outcome Response) :
  let base := upload_count (trace w) in
  submit_form env req w = (w', o) →
  ∃ evs, trace w' = trace w ++ evs ∧
    (∀ pre buf post, evs = pre ++ EvUpload buf rt_video :: post →
       ∀ i, i < length (photos req) → EvCompleted (base + i) ∈ pre) ∧
    ((∃ i e, upload_fails env base rt_image (photos req) i e) →
       ∀ buf, EvUpload buf rt_video ∉ evs).
Proof.
  intros base Hrun.
  destruct (submit_form_try_of env _ _ _ _ Hrun) as [o' Htry].
  destruct (submit_form_try_trace env _ _ _ _ Htry)
    as [[seen Htr]|(purls & seen & rest & [_ Hok] & Hseen & Htr)].
  - eexists. split; [exact Htr|]. split.
    + intros pre buf post Heq.
      destruct (no_video_upload_in_photo_batch (photos req) seen buf).
      rewrite Heq. apply elem_of_app. right. apply list_elem_of_here.
    + intros _ buf. apply no_video_upload_in_photo_batch.
  - eexists. split; [exact Htr|]. split.
    + intros pre buf post Heq i Hi.
      destruct (split_after _ _ _ _ _ Heq) as [k ->].
      { apply no_video_upload_in_photo_batch. }
      apply elem_of_app. left. apply elem_of_app. right.
      apply list_elem_of_fmap_2. by apply Hseen.
    + intros (i & e & file & Hfile & Herr).
      destruct (Hok i file Hfile) as (u & _ & Hu). fold base in Hu. congruence.
Qed.

(** Scenario A: both photos complete, the second one first, before the video
    is sent. *)
Lemma videos_after_photos_witness :
  trace (fst (submit_form Examples.envA Examples.reqA Examples.w0))
  = [EvUpload [x01] rt_image; EvUpload [x02] rt_image;
     EvCompleted 1; EvCompleted 0;
     EvUpload [x03] rt_video; EvCompleted 2;
     EvSave (mkForm 7 (Some "Ada") (Some "1 Infinite Loop") ["U_p1"; "U_p2"] ["U_v1"])] ∧
  EvCompleted 0 ∈ [EvUpload [x01] rt_image; EvUpload [x02] rt_image;
                   EvCompleted 1; EvCompleted 0].
Proof.
  split; [reflexivity|].
  destruct (videos_after_photos Examples.envA Examples.reqA Examples.w0 _ _ eq_refl)
    as (evs & Htr & Horder & _).
  simpl in Htr. subst evs.
  exact (Horder [EvUpload [x01] rt_image; EvUpload [x02] rt_image;
                 EvCompleted 1; EvCompleted 0] [x03]
                [EvCompleted 2;
                 EvSave (mkForm 7 (Some "Ada") (Some "1 Infinite Loop")
                           ["U_p1"; "U_p2"] ["U_v1"])]
                eq_refl 0 ltac:(cbv; lia)).
Defined.

(** * Further properties of [Promise.all] *)

Section PromiseAllMore.
Context {A : Type}.
Implicit Types (promises : list (Promise A)) (values : list (option A)).
Implicit Types (order seen : list nat).

(** Only completions of the aggregated promises are observed. *)
Lemma all_loop_seen promises order : ∀ values r seen res,
  all_loop promises values r order = (seen, res) →
  ∀ k, k ∈ seen → ∃ i p, promises !! i = Some p ∧ pid p = k.
Proof.
  induction order as [|i order IH]; intros values r seen res Hrun k Hk.
  - destruct r; simplify_eq/=; by apply elem_of_nil in Hk.
  - destruct r as [|r]; [simplify_eq/=; by apply elem_of_nil in Hk|].
    cbn [all_loop] in Hrun.
    destruct (promises !! i) as [p|] eqn:Hp; [|by eapply IH].
    destruct (values !! i) as [[v|]|]; [by eapply IH| |by eapply IH].
    destruct (outcome p) as [v|e].
    + destruct (all_loop promises (<[i:=Some v]> values) r order)
        as [seen0 res0] eqn:Hrec. simplify_eq.
      apply elem_of_cons in Hk as [->|Hk]; [eauto|by eapply IH].
    + simplify_eq. apply list_elem_of_singleton in Hk as ->. eauto.
Qed.

(** A rejection is the last completion observed, and every completion
    observed before it was a fulfilment. *)
Lemma all_loop_rejected_last promises order : ∀ values r seen e,
  all_loop promises values r order = (seen, Some (Rejected e)) →
  ∃ seen' i p,
    seen = seen' ++ [pid p] ∧ promises !! i = Some p ∧ outcome p = Rejected e ∧
    ∀ k, k ∈ seen' →
      ∃ i' q v, promises !! i' = Some q ∧ pid q = k ∧ outcome q = Fulfilled v.
Proof.
  induction order as [|i order IH]; intros values r seen e Hrun.
  - by destruct r.
  - destruct r as [|r]; [done|]. cbn [all_loop] in Hrun.
    destruct (promises !! i) as [p|] eqn:Hp; [|by eapply IH].
    destruct (values !! i) as [[v|]|]; [by eapply IH| |by eapply IH].
    destruct (outcome p) as [v|e'] eqn:Hv.
    + destruct (all_loop promises (<[i:=Some v]> values) r order)
        as [seen0 res0] eqn:Hrec. simplify_eq.
      destruct (IH _ _ _ _ Hrec) as (seen' & j & q & -> & Hq & He & Hbefore).
      exists (pid p :: seen'), j, q. split_and!; [done|done|done|].
      intros k [->|Hk]%elem_of_cons; [by eexists i, p, v|eauto].
    + simplify_eq. exists [], i, p. split_and!; [done|done|done|].
      intros k Hk. by apply elem_of_nil in Hk.
Qed.

(** While some promise never completes and no completing promise is
    rejected, the aggregate does not settle. *)
Lemma all_loop_pending promises order : ∀ values r i,
  all_inv promises values r →
  values !! i = Some None → i ∉ order →
  (∀ k p, k ∈ order → promises !! k = Some p → ∃ v, outcome p = Fulfilled v) →
  ∃ seen, all_loop promises values r order = (seen, None).
Proof.
  induction order as [|k order IH]; intros values r i Hinv Hi Hnot Hful.
  - destruct r as [|r]; [|by eexists].
    apply holes_lookup in Hi. destruct Hinv as [_ Hrem _]. lia.
  - destruct r as [|r].
    { apply holes_lookup in Hi. destruct Hinv as [_ Hrem _]. lia. }
    apply not_elem_of_cons in Hnot as [Hne Hnot].
    assert (∀ k' p, k' ∈ order → promises !! k' = Some p →
                    ∃ v, outcome p = Fulfilled v) as Hful'.
    { intros k' p Hk'. apply Hful. by apply list_elem_of_further. }
    cbn [all_loop].
    destruct (promises !! k) as [p|] eqn:Hp; [|by eapply IH].
    destruct (values !! k) as [[v|]|] eqn:Hk; [by eapply IH| |by eapply IH].
    destruct (Hful k p (list_elem_of_here _ _) Hp) as [v Hv]. rewrite Hv.
    destruct (IH (<[k:=Some v]> values) r i) as [seen ->];
      [by eapply all_inv_step| |done|done|by eexists].
    by rewrite list_lookup_insert_ne.
Qed.

(** Either every promise is fulfilled or one of them is rejected. *)
Lemma outcomes_cases promises :
  (∃ vs : list A, outcome <$> promises = Fulfilled <$> vs) ∨
  (∃ i p e, promises !! i = Some p ∧ outcome p = Rejected e).
Proof.
  induction promises as [|p ps IH]; [left; by exists []|].
  destruct (outcome p) as [v|e] eqn:Hv; [|right; by exists 0, p, e].
  destruct IH as [[vs Hvs]|(i & q & e & Hq & He)].
  - left. exists (v :: vs). rewrite !fmap_cons. by rewrite Hv, Hvs.
  - right. by exists (S i), q, e.
Qed.

End PromiseAllMore.

(** * Further properties of the upload fan-out *)

Section UploadsMore.
Context (env : Env).
Implicit Types (fs : list File) (urls : list string) (w : World).

(** The Object Store either answers every upload of a batch with a URL or
    answers one of them with an error. *)
Lemma uploads_cases base kind fs :
  (∃ urls, uploads_succeed env base kind fs urls) ∨
  (∃ i e, upload_fails env base kind fs i e).
Proof.
  destruct (outcomes_cases (promises_of env base kind fs))
    as [[urls Hurls]|(i & p & e & Hp & He)].
  - left. exists urls. by apply uploads_succeed_outcomes.
  - right. rewrite lookup_promises_of in Hp.
    destruct (fs !! i) as [file|] eqn:Hf; simplify_eq/=.
    exists i, e, file. split; [done|].
    destruct (upload_stream env (base + i) (buffer file) kind); by simplify_eq/=.
Qed.

(** When every upload of the batch completes, the fan-out settles. *)
Lemma upload_all_not_pending kind fs w w' :
  all_complete env kind (length fs) →
  upload_all env kind fs w ≠ (w', Pending).
Proof.
  intros Hall Hrun.
  destruct (uploads_cases (upload_count (trace w)) kind fs)
    as [[urls Hok]|(i & e & Hfail)].
  - destruct (upload_all_success env _ _ _ _ Hok Hall) as [w1 Hw1]. congruence.
  - assert (i ∈ completion env kind) as Hin.
    { apply Hall. destruct Hfail as (file & Hf & _). by eapply lookup_lt_Some. }
    destruct (upload_all_failure env _ _ _ _ _ Hfail Hin)
      as (w1 & pre & j & post & e' & _ & _ & _ & Hw1). congruence.
Qed.

(** The completions the fan-out observes are those of calls of its batch. *)
Lemma upload_all_seen kind fs w w' (o : Outcome (list string)) :
  upload_all env kind fs w = (w', o) →
  ∃ seen, w' = after_batch kind fs seen w ∧
          ∀ k, k ∈ seen → ∃ i, i < length fs ∧ k = upload_count (trace w) + i.
Proof.
  rewrite upload_all_unfold.
  destruct (Promise_all _ _) as [seen res] eqn:Hrun. intros [= <- _].
  exists seen. split; [done|]. intros k Hk.
  destruct (all_loop_seen _ _ _ _ _ _ Hrun k Hk) as (i & p & Hp & <-).
  rewrite lookup_promises_of in Hp.
  destruct (fs !! i) as [file|] eqn:Hf; simplify_eq/=.
  exists i. split; [by eapply lookup_lt_Some|done].
Qed.

(** An upload that never completes, while no completing upload is refused,
    leaves the fan-out unsettled. *)
Lemma upload_all_pending kind fs w i :
  i < length fs → i ∉ completion env kind →
  (∀ k e, k ∈ completion env kind →
          ¬ upload_fails env (upload_count (trace w)) kind fs k e) →
  ∃ w', upload_all env kind fs w = (w', Pending).
Proof.
  intros Hi Hnot Hnofail. rewrite upload_all_unfold.
  destruct (all_loop_pending
              (promises_of env (upload_count (trace w)) kind fs)
              (completion env kind) _ _ i
              (all_inv_init _)) as [seen Hrun].
  - apply lookup_replicate. by rewrite length_promises_of.
  - done.
  - intros k p Hk Hp. rewrite lookup_promises_of in Hp.
    destruct (fs !! k) as [file|] eqn:Hf; simplify_eq/=.
    destruct (upload_stream env (upload_count (trace w) + k) (buffer file) kind)
      as [e|u] eqn:Hrep; [|by eexists].
    destruct (Hnofail k e Hk). by exists file.
  - unfold Promise_all. rewrite Hrun. by eexists.
Qed.

Lemma filter_is_upload_batch kind fs seen :
  filter is_upload (upload_events kind fs ++ (EvCompleted <$> seen))
  = upload_events kind fs.
Proof.
  rewrite filter_app.
  assert (filter is_upload (EvCompleted <$> seen) = []) as ->.
  { induction seen as [|k seen IH]; [done|].
    rewrite fmap_cons, filter_cons_False by (by intros []). done. }
  rewrite app_nil_r. unfold upload_events.
  induction fs as [|f fs IH]; [done|].
  rewrite fmap_cons, filter_cons_True by done. by rewrite IH.
Qed.

Lemma filter_is_save_batch kind fs seen :
  filter is_save (upload_events kind fs ++ (EvCompleted <$> seen)) = [].
Proof.
  rewrite filter_app.
  assert (filter is_save (EvCompleted <$> seen) = []) as ->.
  { induction seen as [|k seen IH]; [done|].
    rewrite fmap_cons, filter_cons_False by (by intros []). done. }
  rewrite app_nil_r. unfold upload_events.
  induction fs as [|f fs IH]; [done|].
  rewrite fmap_cons, filter_cons_False by (by intros []). done.
Qed.

End UploadsMore.

(** X1.  Whatever its outcome, the fan-out first calls [uploadToCloudinary]
    once for every file of the batch, in input order, each time with the
    file's own buffer and the batch's resource type, and only then observes
    completions, all of them of calls of this batch.  A refused upload
    therefore does not keep the uploads of its siblings from being started.
    The collection is not touched. *)
Theorem upload_all_starts_whole_batch (env : Env) (kind : ResourceType)
    (fs : list File) (w w' : World) (o : Outcome (list string)) :
  upload_all env kind fs w = (w', o) →
  ∃ seen,
    trace w' = trace w ++ ((λ file, EvUpload (buffer file) kind) <$> fs)
                       ++ (EvCompleted <$> seen) ∧
    forms w' = forms w ∧
    ∀ k, k ∈ seen → ∃ i, i < length fs ∧ k = upload_count (trace w) + i.
Proof.
  intros (seen & -> & Hseen)%upload_all_seen. by exists seen.
Qed.

Lemma upload_all_starts_whole_batch_witness :
  ∃ seen,
    trace (fst (upload_all MoreExamples.envRace rt_image
                  [Examples.p1; Examples.p2; Examples.v1] Examples.w0))
    = [] ++ [EvUpload [x01] rt_image; EvUpload [x02] rt_image; EvUpload [x03] rt_image]
         ++ (EvCompleted <$> seen) ∧
    forms (fst (upload_all MoreExamples.envRace rt_image
                  [Examples.p1; Examples.p2; Examples.v1] Examples.w0)) = [] ∧
    ∀ k, k ∈ seen → ∃ i, i < 3 ∧ k = 0 + i.
Proof.
  exact (upload_all_starts_whole_batch MoreExamples.envRace rt_image
           [Examples.p1; Examples.p2; Examples.v1] Examples.w0 _ _ eq_refl).
Defined.

(** X2.  The fan-out fails fast.  When it throws, the completion of the
    refused upload whose error it throws is the last event it observed; every
    completion observed before that was of an upload answered with a URL, and
    the uploads that complete later are not awaited. *)
Theorem upload_all_stops_at_first_failure (env : Env) (kind : ResourceType)
    (fs : list File) (w w' : World) (e : Err) :
  let base := upload_count (trace w) in
  upload_all env kind fs w = (w', Throw e) →
  ∃ seen j,
    trace w' = trace w ++ ((λ file, EvUpload (buffer file) kind) <$> fs)
                       ++ (EvCompleted <$> seen) ++ [EvCompleted (base + j)] ∧
    upload_fails env base kind fs j e ∧
    ∀ k, k ∈ seen →
      ∃ i file u, k = base + i ∧ fs !! i = Some file ∧
                  upload_stream env (base + i) (buffer file) kind = cb_result u.
Proof.
  intros base. rewrite upload_all_unfold.
  destruct (Promise_all _ _) as [seen [[values|e']|]] eqn:Hrun; intros; simplify_eq.
  apply all_loop_rejected_last in Hrun as (seen' & j & p & -> & Hp & He & Hbefore).
  rewrite lookup_promises_of in Hp.
  destruct (fs !! j) as [fj|] eqn:Hfj; simplify_eq/=.
  exists seen', j. split_and!.
  - by rewrite fmap_app.
  - exists fj. split; [done|]. fold base in He.
    destruct (upload_stream env (base + j) (buffer fj) kind); by simplify_eq/=.
  - intros k Hk. destruct (Hbefore k Hk) as (i & q & v & Hq & <- & Hv).
    rewrite lookup_promises_of in Hq.
    destruct (fs !! i) as [file|] eqn:Hf; simplify_eq/=.
    exists i, file, v. split_and!; [done|done|]. fold base in Hv.
    destruct (upload_stream env (base + i) (buffer file) kind); by simplify_eq/=.
Qed.

Lemma upload_all_stops_at_first_failure_witness :
  ∃ seen j,
    trace (fst (upload_all MoreExamples.envRace rt_image
                  [Examples.p1; Examples.p2; Examples.v1] Examples.w0))
    = [] ++ [EvUpload [x01] rt_image; EvUpload [x02] rt_image; EvUpload [x03] rt_image]
         ++ (EvCompleted <$> seen) ++ [EvCompleted (0 + j)] ∧
    upload_fails MoreExamples.envRace 0 rt_image
      [Examples.p1; Examples.p2; Examples.v1] j (mkErr "File size too large") ∧
    ∀ k, k ∈ seen →
      ∃ i file u, k = 0 + i ∧ [Examples.p1; Examples.p2; Examples.v1] !! i = Some file ∧
                  upload_stream MoreExamples.envRace (0 + i) (buffer file) rt_image
                  = cb_result u.
Proof.
  exact (upload_all_stops_at_first_failure MoreExamples.envRace rt_image
           [Examples.p1; Examples.p2; Examples.v1] Examples.w0 _ _ eq_refl).
Defined.

(** X3.  There is no timeout.  When some upload of the batch never completes
    and none of the uploads that do complete is refused, the fan-out never
    settles: the [await] is not resumed. *)
Theorem upload_all_never_settles (env : Env) (kind : ResourceType)
    (fs : list File) (w : World) (i : nat) :
  i < length fs → i ∉ completion env kind →
  (∀ k e, k ∈ completion env kind →
          ¬ upload_fails env (upload_count (trace w)) kind fs k e) →
  ∃ w', upload_all env kind fs w = (w', Pending).
Proof. apply upload_all_pending. Qed.

Lemma upload_all_never_settles_witness :
  ∃ w', upload_all MoreExamples.envSlow rt_image [Examples.p1; Examples.p2] Examples.w0
        = (w', Pending).
Proof.
  apply (upload_all_never_settles MoreExamples.envSlow rt_image
           [Examples.p1; Examples.p2] Examples.w0 1).
  - simpl. lia.
  - simpl. intros Hin. apply list_elem_of_singleton in Hin. discriminate Hin.
  - intros k e Hk (file & _ & Herr). cbv in Herr.
    destruct k as [|[|n]]; discriminate Herr.
Defined.

(** * Further properties of the handlers *)

Section HandlersMore.
Context (env : Env).
Implicit Types (req : Request) (w : World).

(** Every run of the [try] block ends in one of the ways of [try_run]. *)
Lemma submit_form_try_run req w w' (o : Outcome Response) :
  submit_form_try env req w = (w', o) → try_run env req w w' o.
Proof.
  rewrite submit_form_try_unfold.
  destruct (no_files req) eqn:Hcheck.
  { intros [= <- <-]. by constructor. }
  destruct (upload_all env rt_image (photos req) w) as [w1 o1] eqn:Hp.
  pose proof (upload_all_world env _ _ _ _ _ Hp) as (Hc1 & _ & _).
  destruct (upload_all_seen env _ _ _ _ _ Hp) as (seen1 & Hw1 & _).
  destruct o1 as [purls|e|].
  - apply upload_all_return in Hp as [Hpok _].
    destruct (upload_all env rt_video (videos req) w1) as [w2 o2] eqn:Hv.
    destruct (upload_all_seen env _ _ _ _ _ Hv) as (seen2 & Hw2 & _).
    destruct o2 as [vurls|e|].
    + apply upload_all_return in Hv as [Hvok _]. rewrite Hc1 in Hvok.
      cbv zeta. destruct (save_error env _) as [e|] eqn:Hsave.
      * intros [= <- <-]. subst w2 w1. by eapply run_save_refused.
      * intros [= <- <-]. subst w2 w1.
        by apply (run_saved env req w purls vurls seen1 seen2).
    + apply upload_all_throw in Hv as [i Hfail]. rewrite Hc1 in Hfail.
      intros [= <- <-]. subst w2 w1. by eapply run_videos_throw.
    + intros [= <- <-]. subst w2.
      rewrite Hw1 in Hv. subst w1. eapply run_videos_pending; [done|done|].
      intros Hall. by eapply upload_all_not_pending.
  - apply upload_all_throw in Hp as [i Hfail].
    intros [= <- <-]. subst w1. by eapply run_photos_throw.
  - intros [= <- <-]. rewrite Hw1 in Hp. subst w1.
    eapply run_photos_pending; [done|].
    intros Hall. by eapply upload_all_not_pending.
Qed.

(** The handler's outcome is that of its [try] block, except that a thrown
    exception has become the 500 response. *)
Lemma submit_form_run req w w' (o : Outcome Response) :
  submit_form env req w = (w', o) →
  ∃ o', try_run env req w w' o' ∧
        o = match o' with
            | Throw e => Return (response_500 (message e))
            | _ => o'
            end.
Proof.
  rewrite submit_form_unfold.
  destruct (submit_form_try env req w) as [w1 o1] eqn:Htry.
  apply submit_form_try_run in Htry.
  destruct o1 as [r|e|]; intros [= <- <-]; eauto.
Qed.

Lemma filter_upload_events kind (fs : list File) :
  filter is_upload (upload_events kind fs) = upload_events kind fs.
Proof.
  unfold upload_events. induction fs as [|f fs IH]; [done|].
  rewrite fmap_cons, filter_cons_True by done. by rewrite IH.
Qed.

Lemma filter_upload_completed (seen : list nat) :
  filter is_upload (EvCompleted <$> seen) = [].
Proof.
  induction seen as [|k seen IH]; [done|].
  rewrite fmap_cons, filter_cons_False by (by intros []). done.
Qed.

Lemma filter_save_events kind (fs : list File) :
  filter is_save (upload_events kind fs) = [].
Proof.
  unfold upload_events. induction fs as [|f fs IH]; [done|].
  rewrite fmap_cons, filter_cons_False by (by intros []). done.
Qed.

Lemma filter_save_completed (seen : list nat) :
  filter is_save (EvCompleted <$> seen) = [].
Proof.
  induction seen as [|k seen IH]; [done|].
  rewrite fmap_cons, filter_cons_False by (by intros []). done.
Qed.

(** The Object Store's answers determine the URL list. *)
Lemma uploads_succeed_inj base kind fs urls urls' :
  uploads_succeed env base kind fs urls →
  uploads_succeed env base kind fs urls' → urls = urls'.
Proof.
  intros H1%uploads_succeed_outcomes H2%uploads_succeed_outcomes.
  rewrite H1 in H2. by apply (inj (fmap Fulfilled)) in H2.
Qed.

Lemma uploads_succeed_not_fails base kind fs urls i e :
  uploads_succeed env base kind fs urls → ¬ upload_fails env base kind fs i e.
Proof.
  intros [_ Hok] (file & Hf & Herr).
  destruct (Hok i file Hf) as (u & _ & Hu). congruence.
Qed.

(** The events a run of the [try] block appends, and what they contain. *)
Lemma try_run_events req w w' (o : Outcome Response) :
  try_run env req w w' o →
  ∃ evs, trace w' = trace w ++ evs ∧
    forms w' = forms w ++ persisted_of o ∧
    (filter is_upload evs = [] ∧ no_files req = true ∨
     filter is_upload evs = upload_events rt_image (photos req) ∧
       no_files req = false ∧
       (o = Pending ∧ ¬ all_complete env rt_image (length (photos req)) ∨
        ∃ e i, o = Throw e ∧
               upload_fails env (upload_count (trace w)) rt_image (photos req) i e) ∨
     filter is_upload evs = upload_events rt_image (photos req)
                            ++ upload_events rt_video (videos req) ∧
       no_files req = false ∧
       ∃ purls,
         uploads_succeed env (upload_count (trace w)) rt_image (photos req) purls) ∧
    (filter is_save evs = [] ∧ persisted_of o = [] ∨
     ∃ pre doc, evs = pre ++ [EvSave doc] ∧ filter is_save pre = [] ∧
                (persisted_of o = [doc] ∨ persisted_of o = [])).
Proof.
  intros Hrun.
  destruct Hrun as [Hc|seen i e Hc Hf|seen Hc Hn|purls seen1 seen2 i e Hc Hp Hf
                   |purls seen1 seen2 Hc Hp Hn|purls vurls seen1 seen2 e Hc Hp Hv Hs
                   |purls vurls seen1 seen2 Hc Hp Hv Hs].
  - exists []. rewrite !app_nil_r. split_and!; [done|done|by left|by left].
  - exists (upload_events rt_image (photos req) ++ (EvCompleted <$> seen)).
    split; [reflexivity|]. cbn [persisted_of after_batch log forms].
    rewrite app_nil_r, (filter_is_upload_batch rt_image (photos req) seen),
      (filter_is_save_batch rt_image (photos req) seen).
    split_and!; [done| |by left]. right. left. split_and!; [done|done|]. right. eauto.
  - exists (upload_events rt_image (photos req) ++ (EvCompleted <$> seen)).
    split; [reflexivity|]. cbn [persisted_of after_batch log forms].
    rewrite app_nil_r, (filter_is_upload_batch rt_image (photos req) seen),
      (filter_is_save_batch rt_image (photos req) seen).
    split_and!; [done| |by left]. right. left. split_and!; [done|done|]. by left.
  - exists ((upload_events rt_image (photos req) ++ (EvCompleted <$> seen1))
            ++ (upload_events rt_video (videos req) ++ (EvCompleted <$> seen2))).
    split; [cbn [after_batch log trace]; by rewrite <- !app_assoc|].
    cbn [persisted_of after_batch log forms].
    split_and!; [by rewrite app_nil_r| |left; split; [|done]].
    + right. right. split_and!; [|done|eauto].
      rewrite !filter_app,
        (filter_upload_events rt_image (photos req)),
        (filter_upload_events rt_video (videos req)),
        (filter_upload_completed seen1), (filter_upload_completed seen2). by rewrite !app_nil_r.
    + rewrite !filter_app,
        (filter_save_events rt_image (photos req)),
        (filter_save_events rt_video (videos req)),
        (filter_save_completed seen1), (filter_save_completed seen2). done.
  - exists ((upload_events rt_image (photos req) ++ (EvCompleted <$> seen1))
            ++ (upload_events rt_video (videos req) ++ (EvCompleted <$> seen2))).
    split; [cbn [after_batch log trace]; by rewrite <- !app_assoc|].
    cbn [persisted_of after_batch log forms].
    split_and!; [by rewrite app_nil_r| |left; split; [|done]].
    + right. right. split_and!; [|done|eauto].
      rewrite !filter_app,
        (filter_upload_events rt_image (photos req)),
        (filter_upload_events rt_video (videos req)),
        (filter_upload_completed seen1), (filter_upload_completed seen2). by rewrite !app_nil_r.
    + rewrite !filter_app,
        (filter_save_events rt_image (photos req)),
        (filter_save_events rt_video (videos req)),
        (filter_save_completed seen1), (filter_save_completed seen2). done.
  - exists (((upload_events rt_image (photos req) ++ (EvCompleted <$> seen1))
             ++ (upload_events rt_video (videos req) ++ (EvCompleted <$> seen2)))
            ++ [EvSave (new_Form env (body req) purls vurls)]).
    split; [cbn [after_batch log trace]; by rewrite <- !app_assoc|].
    cbn [persisted_of after_batch log forms response_200 json].
    split_and!; [by rewrite app_nil_r| |].
    + right. right. split_and!; [|done|eauto].
      rewrite !filter_app,
        (filter_upload_events rt_image (photos req)),
        (filter_upload_events rt_video (videos req)),
        (filter_upload_completed seen1), (filter_upload_completed seen2).
      rewrite filter_cons_False by (by intros []). by rewrite !app_nil_r.
    + right. eexists _, _. split; [done|]. split; [|by right].
      rewrite !filter_app,
        (filter_save_events rt_image (photos req)),
        (filter_save_events rt_video (videos req)),
        (filter_save_completed seen1), (filter_save_completed seen2). done.
  - exists (((upload_events rt_image (photos req) ++ (EvCompleted <$> seen1))
             ++ (upload_events rt_video (videos req) ++ (EvCompleted <$> seen2)))
            ++ [EvSave (new_Form env (body req) purls vurls)]).
    split; [cbn [after_batch log trace]; by rewrite <- !app_assoc|].
    cbn [persisted_of after_batch log forms response_200 json].
    split_and!; [done| |].
    + right. right. split_and!; [|done|eauto].
      rewrite !filter_app,
        (filter_upload_events rt_image (photos req)),
        (filter_upload_events rt_video (videos req)),
        (filter_upload_completed seen1), (filter_upload_completed seen2).
      rewrite filter_cons_False by (by intros []). by rewrite !app_nil_r.
    + right. eexists _, _. split; [done|]. split; [|by left].
      rewrite !filter_app,
        (filter_save_events rt_image (photos req)),
        (filter_save_events rt_video (videos req)),
        (filter_save_completed seen1), (filter_save_completed seen2). done.
Qed.

End HandlersMore.

(** X4.  When every photo upload and every video upload of the submission
    completes, the handler does not stay suspended on the uploads: either it
    goes on to invoke [save], as its last recorded action, or it answers 400
    or 500 without having invoked [save]. *)
Theorem submit_form_gets_past_uploads (env : Env) (req : Request) (w : World) :
  all_complete env rt_image (length (photos req)) →
  all_complete env rt_video (length (videos req)) →
  ∃ w' o evs,
    submit_form env req w = (w', o) ∧ trace w' = trace w ++ evs ∧
    ((∃ pre doc, evs = pre ++ [EvSave doc]) ∨
     (∃ r, o = Return r ∧ filter is_save evs = [] ∧
           (status r = 400 ∨ status r = 500))).
Proof.
  intros Hpall Hvall.
  destruct (submit_form env req w) as [w' o] eqn:Hrun.
  destruct (submit_form_run env _ _ _ _ Hrun) as (o' & Hr & ->).
  destruct Hr as [Hc|seen i e Hc Hf|seen Hc Hn|purls seen1 seen2 i e Hc Hp Hf
                 |purls seen1 seen2 Hc Hp Hn|purls vurls seen1 seen2 e Hc Hp Hv Hs
                 |purls vurls seen1 seen2 Hc Hp Hv Hs]; try contradiction.
  - eexists _, _, []. split_and!; [done|by rewrite app_nil_r|].
    right. eexists. split_and!; [done|done|by left].
  - eexists _, _, (upload_events rt_image (photos req) ++ (EvCompleted <$> seen)).
    split_and!; [done|done|].
    right. eexists. split_and!; [done|apply filter_is_save_batch|by right].
  - eexists _, _,
      ((upload_events rt_image (photos req) ++ (EvCompleted <$> seen1))
       ++ (upload_events rt_video (videos req) ++ (EvCompleted <$> seen2))).
    split_and!; [done|cbn [after_batch log trace]; by rewrite <- !app_assoc|].
    right. eexists. split_and!; [done| |by right].
    by rewrite filter_app, !filter_is_save_batch.
  - eexists _, _,
      (((upload_events rt_image (photos req) ++ (EvCompleted <$> seen1))
        ++ (upload_events rt_video (videos req) ++ (EvCompleted <$> seen2)))
       ++ [EvSave (new_Form env (body req) purls vurls)]).
    split_and!; [done|cbn [after_batch log trace]; by rewrite <- !app_assoc|].
    left. by eexists _, _.
  - eexists _, _,
      (((upload_events rt_image (photos req) ++ (EvCompleted <$> seen1))
        ++ (upload_events rt_video (videos req) ++ (EvCompleted <$> seen2)))
       ++ [EvSave (new_Form env (body req) purls vurls)]).
    split_and!; [done|cbn [after_batch log trace]; by rewrite <- !app_assoc|].
    left. by eexists _, _.
Qed.

(** The second photo is refused and completes first: 500, and [save] is not
    invoked. *)
Lemma submit_form_gets_past_uploads_witness :
  ∃ w' o evs,
    submit_form MoreExamples.envRace Examples.reqA Examples.w0 = (w', o) ∧
    trace w' = [] ++ evs ∧
    ((∃ pre doc, evs = pre ++ [EvSave doc]) ∨
     (∃ r, o = Return r ∧ filter is_save evs = [] ∧
           (status r = 400 ∨ status r = 500))).
Proof.
  apply submit_form_gets_past_uploads.
  - intros [|[|i]] Hi; [simpl; repeat constructor..|cbv in Hi; lia].
  - intros [|i] Hi; [simpl; repeat constructor|cbv in Hi; lia].
Defined.

(** X5.  A 200 response is truthful: its body carries the success message
    and a record built from the request's name and address and from URL lists
    that are, position by position, the Object Store's answers for the
    request's photos and videos; the save of that record succeeded and the
    collection is the previous one followed by that record. *)
Theorem response_200_sound (env : Env) (req : Request) (w w' : World)
    (r : Response) :
  let base := upload_count (trace w) in
  submit_form env req w = (w', Return r) → status r = 200 →
  ∃ purls vurls,
    let doc := mkForm (ObjectId env) (Body.name (body req)) (Body.address (body req))
                      purls vurls in
    r = mkResponse 200 (JSubmitted "Form submitted successfully!" doc) ∧
    uploads_succeed env base rt_image (photos req) purls ∧
    uploads_succeed env (base + length (photos req)) rt_video (videos req) vurls ∧
    save_error env doc = None ∧
    forms w' = forms w ++ [doc].
Proof.
  intros base Hrun Hst.
  destruct (submit_form_run env _ _ _ _ Hrun) as (o' & Hr & Ho).
  destruct Hr; simplify_eq/=.
  eexists _, _. split_and!; done.
Qed.

Lemma response_200_sound_witness :
  ∃ purls vurls,
    let doc := mkForm 7 (Some "Ada") (Some "1 Infinite Loop") purls vurls in
    snd (submit_form Examples.envA Examples.reqA Examples.w0)
    = Return (mkResponse 200 (JSubmitted "Form submitted successfully!" doc)) ∧
    uploads_succeed Examples.envA 0 rt_image [Examples.p1; Examples.p2] purls ∧
    uploads_succeed Examples.envA 2 rt_video [Examples.v1] vurls ∧
    save_error Examples.envA doc = None ∧
    forms (fst (submit_form Examples.envA Examples.reqA Examples.w0)) = [] ++ [doc].
Proof.
  destruct (response_200_sound Examples.envA Examples.reqA Examples.w0 _ _
              eq_refl eq_refl) as (purls & vurls & Hr & Hp & Hv & Hs & Hf).
  exists purls, vurls. split_and!; [exact (f_equal Return Hr)|done|done|done|done].
Defined.

(** X6.  A 400 response is only ever given to a request that carries neither
    a [photo] nor a [video] key; it has the fixed message, and nothing was
    uploaded, saved or otherwise changed. *)
Theorem response_400_sound (env : Env) (req : Request) (w w' : World)
    (r : Response) :
  submit_form env req w = (w', Return r) → status r = 400 →
  r = mkResponse 400 (JMessage "At least one photo or video is required") ∧
  w' = w ∧
  files req ≫= photo = None ∧ files req ≫= video = None.
Proof.
  intros Hrun Hst.
  destruct (submit_form_run env _ _ _ _ Hrun) as (o' & Hr & Ho).
  destruct Hr as [Hc| | | | | |]; simplify_eq/=.
  apply no_files_spec in Hc as [Hp Hv]. done.
Qed.

Lemma response_400_sound_witness :
  let req := mkRequest None (Body.mk (Some "Ada") None) in
  fst (submit_form Examples.envA req Examples.w0) = Examples.w0 ∧
  files req ≫= photo = None ∧ files req ≫= video = None.
Proof.
  intros req.
  exact (proj2 (response_400_sound Examples.envA req Examples.w0 _ _ eq_refl eq_refl)).
Defined.

(** X7.  A 500 response means that no record was added, and its [error]
    field is the message of a definite cause: a refused photo upload, a
    refused video upload after every photo was uploaded, or a refused save
    after every attachment was uploaded. *)
Theorem response_500_sound (env : Env) (req : Request) (w w' : World)
    (r : Response) :
  let base := upload_count (trace w) in
  let vbase := base + length (photos req) in
  submit_form env req w = (w', Return r) → status r = 500 →
  forms w' = forms w ∧ no_files req = false ∧
  ∃ e, r = mkResponse 500 (JMessageError "Something went wrong" (message e)) ∧
    ((∃ i, upload_fails env base rt_image (photos req) i e) ∨
     (∃ purls i, uploads_succeed env base rt_image (photos req) purls ∧
                 upload_fails env vbase rt_video (videos req) i e) ∨
     (∃ purls vurls,
        uploads_succeed env base rt_image (photos req) purls ∧
        uploads_succeed env vbase rt_video (videos req) vurls ∧
        save_error env (new_Form env (body req) purls vurls) = Some e)).
Proof.
  intros base vbase Hrun Hst.
  destruct (submit_form_run env _ _ _ _ Hrun) as (o' & Hr & Ho).
  destruct Hr; simplify_eq/=; (split_and!; [done|done|]); eexists; (split; [done|]).
  - left. eauto.
  - right. left. eauto.
  - right. right. eauto.
Qed.

Lemma response_500_sound_witness :
  forms (fst (submit_form MoreExamples.envRefused Examples.reqA Examples.w0)) = [] ∧
  no_files Examples.reqA = false ∧
  ∃ e, snd (submit_form MoreExamples.envRefused Examples.reqA Examples.w0)
       = Return (mkResponse 500 (JMessageError "Something went wrong" (message e))) ∧
    ((∃ i, upload_fails MoreExamples.envRefused 0 rt_image
             (photos Examples.reqA) i e) ∨
     (∃ purls i, uploads_succeed MoreExamples.envRefused 0 rt_image
                   (photos Examples.reqA) purls ∧
                 upload_fails MoreExamples.envRefused 2 rt_video
                   (videos Examples.reqA) i e) ∨
     (∃ purls vurls,
        uploads_succeed MoreExamples.envRefused 0 rt_image (photos Examples.reqA) purls ∧
        uploads_succeed MoreExamples.envRefused 2 rt_video (videos Examples.reqA) vurls ∧
        save_error MoreExamples.envRefused
          (new_Form MoreExamples.envRefused (body Examples.reqA) purls vurls) = Some e)).
Proof.
  destruct (response_500_sound MoreExamples.envRefused Examples.reqA Examples.w0 _ _
              eq_refl eq_refl) as (Hf & Hc & e & Hr & Hcause).
  split_and!; [done|done|]. exists e. split; [exact (f_equal Return Hr)|done].
Defined.

Section Composition.
Context (env : Env).

(** The 500 response announces no record. *)
Lemma persisted_of_catch (o' : Outcome Response) :
  persisted_of match o' with
               | Throw e => Return (response_500 (message e))
               | _ => o'
               end
  = persisted_of o'.
Proof. by destruct o'. Qed.

(** The events and the collection after any run of the handler. *)
Lemma submit_form_events req w w' (o : Outcome Response) :
  submit_form env req w = (w', o) →
  ∃ o' evs,
    try_run env req w w' o' ∧ trace w' = trace w ++ evs ∧
    forms w' = forms w ++ persisted_of o ∧
    persisted_of o = persisted_of o' ∧
    (filter is_upload evs = [] ∧ no_files req = true ∨
     filter is_upload evs = upload_events rt_image (photos req) ∧
       no_files req = false ∧
       (o' = Pending ∧ ¬ all_complete env rt_image (length (photos req)) ∨
        ∃ e i, o' = Throw e ∧
               upload_fails env (upload_count (trace w)) rt_image (photos req) i e) ∨
     filter is_upload evs = upload_events rt_image (photos req)
                            ++ upload_events rt_video (videos req) ∧
       no_files req = false ∧
       ∃ purls,
         uploads_succeed env (upload_count (trace w)) rt_image (photos req) purls) ∧
    (filter is_save evs = [] ∧ persisted_of o = [] ∨
     ∃ pre doc, evs = pre ++ [EvSave doc] ∧ filter is_save pre = [] ∧
                (persisted_of o = [doc] ∨ persisted_of o = [])).
Proof.
  intros Hrun.
  destruct (submit_form_run env _ _ _ _ Hrun) as (o' & Hr & ->).
  destruct (try_run_events env _ _ _ _ Hr) as (evs & Htr & Hf & Hup & Hsv).
  exists o', evs. rewrite persisted_of_catch. by split_and!.
Qed.

End Composition.

(** X8.  The handler only ever appends.  The events that were there stay,
    and the collection afterwards is the previous collection followed by the
    record announced in the response, if one is announced.  [save] is invoked
    at most once, as the last action of the handler, and when a record is
    announced it is the one [save] was invoked on. *)
Theorem submit_form_appends_only (env : Env) (req : Request) (w w' : World)
    (o : Outcome Response) :
  submit_form env req w = (w', o) →
  ∃ evs,
    trace w' = trace w ++ evs ∧
    forms w' = forms w ++ persisted_of o ∧
    (filter is_save evs = [] ∧ persisted_of o = [] ∨
     ∃ pre doc, evs = pre ++ [EvSave doc] ∧ filter is_save pre = [] ∧
                (persisted_of o = [doc] ∨ persisted_of o = [])).
Proof.
  intros Hrun.
  destruct (submit_form_events env _ _ _ _ Hrun)
    as (o' & evs & _ & Htr & Hf & _ & _ & Hsv).
  by exists evs.
Qed.

Lemma submit_form_appends_only_witness :
  let doc0 := mkForm 1 (Some "Grace") None [] ["U_old"] in
  let w := mkWorld [EvSave doc0] [doc0] in
  ∃ evs,
    trace (fst (submit_form Examples.envA Examples.reqA w)) = [EvSave doc0] ++ evs ∧
    forms (fst (submit_form Examples.envA Examples.reqA w))
    = [doc0] ++ persisted_of (snd (submit_form Examples.envA Examples.reqA w)) ∧
    (filter is_save evs = [] ∧
       persisted_of (snd (submit_form Examples.envA Examples.reqA w)) = [] ∨
     ∃ pre doc, evs = pre ++ [EvSave doc] ∧ filter is_save pre = [] ∧
                (persisted_of (snd (submit_form Examples.envA Examples.reqA w)) = [doc] ∨
                 persisted_of (snd (submit_form Examples.envA Examples.reqA w)) = [])).
Proof.
  intros doc0 w.
  exact (submit_form_appends_only Examples.envA Examples.reqA w _ _
           (surjective_pairing _)).
Defined.

(** X9.  The only calls of [uploadToCloudinary] in a submission are for its
    own files.  None is made when the attachment check fails.  Otherwise it is
    called once for every photo, with resource type image and the photo's own
    buffer, in the order of the request, followed either by no further call
    or by one call for every video, with resource type video and the video's
    own buffer, in the order of the request.  No file is handed over twice. *)
Theorem submit_form_uploads_started (env : Env) (req : Request) (w w' : World)
    (o : Outcome Response) :
  submit_form env req w = (w', o) →
  ∃ evs,
    trace w' = trace w ++ evs ∧
    (no_files req = true ∧ filter is_upload evs = [] ∨
     no_files req = false ∧
     (filter is_upload evs
      = ((λ file, EvUpload (buffer file) rt_image) <$> photos req) ∨
      filter is_upload evs
      = ((λ file, EvUpload (buffer file) rt_image) <$> photos req)
        ++ ((λ file, EvUpload (buffer file) rt_video) <$> videos req))).
Proof.
  intros Hrun.
  destruct (submit_form_events env _ _ _ _ Hrun)
    as (o' & evs & _ & Htr & _ & _ & Hup & _).
  exists evs. split; [done|].
  destruct Hup as [[Hs Hc]|[(Hs & Hc & _)|(Hs & Hc & _)]]; [by left|right..];
    (split; [done|]); [by left|by right].
Qed.

Lemma submit_form_uploads_started_witness :
  ∃ evs,
    trace (fst (submit_form MoreExamples.envRace Examples.reqA Examples.w0)) = [] ++ evs ∧
    (no_files Examples.reqA = true ∧ filter is_upload evs = [] ∨
     no_files Examples.reqA = false ∧
     (filter is_upload evs
      = ((λ file, EvUpload (buffer file) rt_image) <$> photos Examples.reqA) ∨
      filter is_upload evs
      = ((λ file, EvUpload (buffer file) rt_image) <$> photos Examples.reqA)
        ++ ((λ file, EvUpload (buffer file) rt_video) <$> videos Examples.reqA))).
Proof.
  exact (submit_form_uploads_started MoreExamples.envRace Examples.reqA Examples.w0 _ _
           (surjective_pairing _)).
Defined.

(** X10.  Nothing is held back once the photos are through.  When the
    request passes the attachment check, every photo is answered with a URL
    and every photo upload completes, then [uploadToCloudinary] is called for
    every video of the request as well, whatever happens afterwards: a
    refused video upload, a video upload that never completes or a refused
    save. *)
Theorem submit_form_no_rollback (env : Env) (req : Request) (w w' : World)
    (o : Outcome Response) (purls : list string) :
  no_files req = false →
  uploads_succeed env (upload_count (trace w)) rt_image (photos req) purls →
  all_complete env rt_image (length (photos req)) →
  submit_form env req w = (w', o) →
  ∃ evs,
    trace w' = trace w ++ evs ∧
    filter is_upload evs
    = ((λ file, EvUpload (buffer file) rt_image) <$> photos req)
      ++ ((λ file, EvUpload (buffer file) rt_video) <$> videos req).
Proof.
  intros Hc Hok Hall Hrun.
  destruct (submit_form_events env _ _ _ _ Hrun)
    as (o' & evs & _ & Htr & _ & _ & Hup & _).
  exists evs. split; [done|].
  destruct Hup as [[_ Hc']|[(_ & _ & [[_ Hn]|(e & i & _ & Hfail)])|(Hs & _ & _)]].
  - congruence.
  - contradiction.
  - by destruct (uploads_succeed_not_fails env _ _ _ _ i e Hok).
  - done.
Qed.

(** The photos and the video are uploaded, MongoDB refuses the document: the
    uploads of all three files have been started all the same. *)
Lemma submit_form_no_rollback_witness :
  ∃ evs,
    trace (fst (submit_form MoreExamples.envRefused Examples.reqA Examples.w0))
    = [] ++ evs ∧
    filter is_upload evs
    = [EvUpload [x01] rt_image; EvUpload [x02] rt_image] ++ [EvUpload [x03] rt_video].
Proof.
  apply (submit_form_no_rollback MoreExamples.envRefused Examples.reqA Examples.w0
           (fst (submit_form MoreExamples.envRefused Examples.reqA Examples.w0))
           (snd (submit_form MoreExamples.envRefused Examples.reqA Examples.w0))
           ["U_p1"; "U_p2"]).
  - reflexivity.
  - split; [reflexivity|].
    intros [|[|i]] file Hf; simplify_eq/=; eexists; split; reflexivity.
  - intros [|[|i]] Hi; [simpl; repeat constructor..|cbv in Hi; lia].
  - apply surjective_pairing.
Defined.

(** X11.  Submitting and then listing.  After any run of [/submit-form],
    [GET /forms] (when [find] succeeds) answers 200 with an array that holds,
    in some order, the records that were stored before and the record that
    the submission's response announced, if it announced one: nothing else,
    and each as often as it is stored. *)
Theorem submit_then_list (env env' : Env) (req : Request) (w w' : World)
    (o : Outcome Response) :
  submit_form env req w = (w', o) →
  find_error env' = None →
  ∃ docs,
    get_forms env' w' = (w', Return (mkResponse 200 (JForms docs))) ∧
    docs ≡ₚ forms w ++ persisted_of o.
Proof.
  intros Hrun Hfind.
  destruct (submit_form_events env _ _ _ _ Hrun)
    as (o' & evs & _ & _ & Hf & _).
  exists (forms w'). split; [|by rewrite Hf].
  unfold get_forms, try_catch, find, mbind, M_bind. by rewrite Hfind.
Qed.

Lemma submit_then_list_witness :
  let doc0 := mkForm 1 (Some "Grace") None [] ["U_old"] in
  let doc := mkForm 7 (Some "Ada") (Some "1 Infinite Loop") ["U_p1"; "U_p2"] ["U_v1"] in
  let w := mkWorld [EvSave doc0] [doc0] in
  ∃ docs,
    snd (get_forms Examples.envA (fst (submit_form Examples.envA Examples.reqA w)))
    = Return (mkResponse 200 (JForms docs)) ∧
    docs ≡ₚ [doc0; doc].
Proof.
  intros doc0 doc w.
  destruct (submit_then_list Examples.envA Examples.envA Examples.reqA w _ _
              (surjective_pairing _) eq_refl) as (docs & Hget & Hperm).
  exists docs. split; [exact (f_equal snd Hget)|exact Hperm].
Defined.

(** X12.  No request-level timeout.  When the request passes the attachment
    check, some photo upload never completes and no completing photo upload
    is refused, the handler never answers: it stays suspended after having
    sent exactly the photos, without sending a video, invoking [save] or
    changing the collection. *)
Theorem submit_form_hangs (env : Env) (req : Request) (w : World) (i : nat) :
  no_files req = false →
  i < length (photos req) → i ∉ completion env rt_image →
  (∀ k e, k ∈ completion env rt_image →
          ¬ upload_fails env (upload_count (trace w)) rt_image (photos req) k e) →
  ∃ w' evs,
    submit_form env req w = (w', Pending) ∧
    trace w' = trace w ++ evs ∧ forms w' = forms w ∧
    filter is_save evs = [] ∧
    filter is_upload evs = ((λ file, EvUpload (buffer file) rt_image) <$> photos req).
Proof.
  intros Hc Hi Hnot Hnofail.
  destruct (upload_all_pending env rt_image (photos req) w i Hi Hnot Hnofail)
    as [w1 Hp].
  destruct (upload_all_seen env _ _ _ _ _ Hp) as (seen & -> & _).
  eexists _, _. rewrite submit_form_unfold, submit_form_try_unfold, Hc, Hp.
  split_and!; [done|done|done| |].
  - apply filter_is_save_batch.
  - apply filter_is_upload_batch.
Qed.

Lemma submit_form_hangs_witness :
  ∃ w' evs,
    submit_form MoreExamples.envSlow Examples.reqA Examples.w0 = (w', Pending) ∧
    trace w' = [] ++ evs ∧ forms w' = [] ∧
    filter is_save evs = [] ∧
    filter is_upload evs = [EvUpload [x01] rt_image; EvUpload [x02] rt_image].
Proof.
  apply (submit_form_hangs MoreExamples.envSlow Examples.reqA Examples.w0 1).
  - reflexivity.
  - simpl. lia.
  - simpl. intros Hin. apply list_elem_of_singleton in Hin. discriminate Hin.
  - intros k e Hk (file & _ & Herr). cbv in Herr.
    destruct k as [|[|n]]; discriminate Herr.
Defined.
